(** * Gamma/DFT.h: sliding windows and sliding DFT, a shallow embedding.

    The development follows [Gamma/DFT.h]:
    - [SlidingWindow<T>]: the hop/window sample buffer,
    - [DFTBase<T>]: the bin buffer shared by all transforms,
    - [DFT]: the read tap of the inverse path,
    - [SlidingDFT<T>]: the per-sample resonator bank.

    Unsigned 32-bit integers are integers in [Z] with the wrap-around
    written out ([wrap]); arrays are lists indexed through [Z.to_nat].
    The sample type [T] is a template parameter in the source: here it is
    any type with the operations of the [Numeric] interface, and no
    algebraic law of these operations is ever used, so every statement
    holds for floating-point samples as it does for exact ones.

    Out-of-range array accesses are undefined behaviour in C++; in this
    model an out-of-range write changes nothing and every statement that
    depends on a write carries the bound that makes it in range. *)

From Stdlib Require Import ZArith Lia.
From stdpp Require Import base tactics list.

Local Open Scope Z_scope.

(** ** Unsigned 32-bit arithmetic *)

Definition wrap (z : Z) : Z := z mod 2 ^ 32.

Definition is_u32 (z : Z) : Prop := 0 <= z < 2 ^ 32.

(** ** The sample interface

    [T(0)], [T(2)], [T(sizeDFT())], [-], [*] and [/] on the template
    parameter [T]. *)

Class Numeric (T : Type) := {
  zero : T;
  sub : T -> T -> T;
  mul : T -> T -> T;
  div : T -> T -> T;
  of_u32 : Z -> T
}.

(** Exact integers are one instance; they serve for concrete runs. *)
#[export] Instance Numeric_Z : Numeric Z := {|
  zero := 0;
  sub := Z.sub;
  mul := Z.mul;
  div := Z.div;
  of_u32 := fun z => z
|}.

(** ** Buffer utilities of [Gamma/mem.h] *)

Module mem.
Section Mem.
Context {T : Type} `{Numeric T}.

(** Modelled from the spec: [mem::deepZero(arr, n)] is the external
    "zero" buffer utility; it clears the first [n] slots of [arr]. *)
Definition deepZero (arr : list T) (n : Z) : list T :=
  replicate (Z.to_nat n `min` length arr) zero ++ drop (Z.to_nat n) arr.

(** Modelled from the spec: [mem::resize(arr, sizeNow, sizeNew)] is the
    external allocation utility.  A request for the current size is a
    no-op reported as [false]; any other request reallocates, keeping the
    old contents up to the new size, and reports [true].  The contents of
    slots that did not exist before are indeterminate: [fresh] supplies
    them. *)
Definition resize (fresh : nat -> T) (arr : list T) (sizeNow sizeNew : Z)
  : bool * list T :=
  if sizeNow =? sizeNew then (false, arr)
  else
    let n := Z.to_nat sizeNew in
    (true, take n arr ++ (fresh <$> seq (length arr) (n - length arr))).

(** Modelled from the spec: [mem::rotateLeft(order, arr, len)] is the
    external "rotate" buffer utility; it rotates the first [len] slots of
    [arr] left by [order] positions. *)
Definition rotateLeft (order : Z) (arr : list T) (len : Z) : list T :=
  rotate (Z.to_nat order) (take (Z.to_nat len) arr)
    ++ drop (Z.to_nat len) arr.

(** Modelled from the spec: [mem::copyAllFromRing(ring, size, tap, dst)]
    is the external "copy" buffer utility; it copies the [size] slots of
    the ring into [dst], starting at the tap [tap] and wrapping around,
    so that [dst] holds the ring in logical order. *)
Definition copyAllFromRing (ring : list T) (ringSize ringTap : Z)
    (dst : list T) : list T :=
  let r := take (Z.to_nat ringSize) ring in
  let w := drop (Z.to_nat ringTap) r ++ take (Z.to_nat ringTap) r in
  take (length dst) w ++ drop (length w) dst.
End Mem.
End mem.

(** ** [scl::clip] of [Gamma/scl.h] *)

(** Modelled from the spec: [scl::clip(value, hi, lo)] is the external
    scalar helper that clamps [value] into [[lo, hi]]. *)
Definition clamp (value hi lo : Z) : Z :=
  if value <? lo then lo else if hi <? value then hi else value.

(** Modelled from the spec: the contract of [scl::clip], which is all the
    window relies on: a value below a non-empty interval [[lo, hi]] goes
    to [lo], a value above it to [hi], a value inside it is kept. *)
Definition clip_contract (clip : Z -> Z -> Z -> Z) : Prop :=
  forall v hi lo, lo <= hi ->
    (v < lo -> clip v hi lo = lo) /\
    (hi < v -> clip v hi lo = hi) /\
    (lo <= v <= hi -> clip v hi lo = v).

(** ** [SlidingWindow<T>] *)

Module SlidingWindow.
Section SlidingWindow.
Context {T : Type} `{Numeric T}.

(** [scl::clip(value, hi, lo)] of [Gamma/scl.h] is not part of this
    file's source; it is a parameter here, constrained only by its
    contract. *)
Variable clip : Z -> Z -> Z -> Z.

(** Contents of freshly allocated storage. *)
Variable fresh : nat -> T.

Record t := mk {
  mBuf : list T;
  mSizeWin : Z;
  mSizeHop : Z;
  mTapW : Z;     (* current index to write to *)
  mHopCnt : Z    (* counts samples for hop *)
}.

Definition sizeWin (w : t) : Z := mSizeWin w.
Definition sizeHop (w : t) : Z := mSizeHop w.
Definition window (w : t) : list T := mBuf w.

(** [void sizeWin(uint32_t size)] *)
Definition set_sizeWin (w : t) (size : Z) : t :=
  let '(ok, buf) := mem.resize fresh (mBuf w) (sizeWin w) size in
  if ok
  then mk buf size (mSizeHop w) (mTapW w) (mHopCnt w)
  else mk buf (mSizeWin w) (mSizeHop w) (mTapW w) (mHopCnt w).

(** [void sizeHop(uint32_t size)] *)
Definition set_sizeHop (w : t) (size : Z) : t :=
  mk (mBuf w) (mSizeWin w) (clip size (sizeWin w) 1) (mTapW w) (mHopCnt w).

(** [void resize(uint32_t winSize, uint32_t hopSize)] *)
Definition resize (w : t) (winSize hopSize : Z) : t :=
  let w1 := set_sizeWin w winSize in
  let w2 := set_sizeHop w1 hopSize in
  mk (mBuf w2) (mSizeWin w2) (mSizeHop w2) 0 (mHopCnt w2).

(** The constructor: [mBuf(0), mSizeWin(0), mSizeHop(0), mHopCnt(0)],
    then [resize] and [mem::deepZero(mBuf, sizeWin())].  [mTapW] has no
    initialiser; [tapW0] is its indeterminate value, overwritten by
    [resize]. *)
Definition create (tapW0 : Z) (winSize hopSize : Z) : t :=
  let w := resize (mk [] 0 0 tapW0 0) winSize hopSize in
  mk (mem.deepZero (mBuf w) (sizeWin w))
     (mSizeWin w) (mSizeHop w) (mTapW w) (mHopCnt w).

(** [bool operator()(T input)] *)
Definition feed (w : t) (input : T) : bool * t :=
  let buf := <[Z.to_nat (mTapW w) := input]> (mBuf w) in
  let tap := wrap (mTapW w + 1) in
  if sizeHop w <=? tap
  then (true,
        mk (mem.rotateLeft (sizeHop w) buf (sizeWin w))
           (mSizeWin w) (mSizeHop w) 0 (mHopCnt w))
  else (false, mk buf (mSizeWin w) (mSizeHop w) tap (mHopCnt w)).

(** [bool operator()(T * output, T input)]; the destination array is
    passed in and handed back. *)
Definition feedCopy (w : t) (output : list T) (input : T)
  : bool * t * list T :=
  let buf := <[Z.to_nat (mTapW w) := input]> (mBuf w) in
  let tap0 := wrap (mTapW w + 1) in
  let tap := if tap0 =? sizeWin w then 0 else tap0 in
  let cnt := wrap (mHopCnt w + 1) in
  if cnt =? sizeHop w
  then (true, mk buf (mSizeWin w) (mSizeHop w) tap 0,
        mem.copyAllFromRing buf (sizeWin w) tap output)
  else (false, mk buf (mSizeWin w) (mSizeHop w) tap cnt, output).

(** Feeding a list of samples, collecting the ready flags. *)
Fixpoint feeds (w : t) (xs : list T) : list bool * t :=
  match xs with
  | [] => ([], w)
  | x :: xs' =>
      let '(b, w1) := feed w x in
      let '(bs, w2) := feeds w1 xs' in
      (b :: bs, w2)
  end.

Fixpoint feedCopies (w : t) (output : list T) (xs : list T)
  : list bool * t * list T :=
  match xs with
  | [] => ([], w, output)
  | x :: xs' =>
      let '(b, w1, o1) := feedCopy w output x in
      let '(bs, w2, o2) := feedCopies w1 o1 xs' in
      (b :: bs, w2, o2)
  end.

End SlidingWindow.
End SlidingWindow.

(** ** [Complex<T>] of [Gamma/Types.h]

    A complex number is a pair of samples, real part first; an array of
    [Complex<T>] and an array of [T] of twice the length share their
    storage (the [union] of [mBuf] and [mBins] in [DFTBase]). *)

Record Complex (T : Type) := mkComplex { re : T; im : T }.
Arguments mkComplex {T} _ _.
Arguments re {T} _.
Arguments im {T} _.

(** The arithmetic of [Complex<T>] and the constant [M_2PI] are declared
    outside this file's source; they are parameters.  [D] stands for
    [double]. *)
Class ComplexArith (T D : Type) := {
  cmul : Complex T -> Complex T -> Complex T;      (* Complex * Complex *)
  cadd_real : Complex T -> T -> Complex T;         (* Complex + T *)
  fromPhase : D -> Complex T;                      (* e^{i p} *)
  M_2PI : D
}.

(** Gaussian integers, for concrete runs; [fromPhase] and [M_2PI] are
    stand-ins there, integers having no phasors. *)
#[export] Instance ComplexArith_Z : ComplexArith Z Z := {|
  cmul := fun a b =>
    mkComplex (re a * re b - im a * im b) (re a * im b + im a * re b);
  cadd_real := fun a x => mkComplex (re a + x) (im a);
  fromPhase := fun p => mkComplex p 1;
  M_2PI := 6
|}.

(** ** [DFTBase<T>] *)

Module DFTBase.
Section DFTBase.
Context {T : Type} `{Numeric T}.

(** The auxiliary buffers and the frequency domain play no part in the
    operations below and are left out. *)
Record t := mk {
  mSizeDFT : Z;
  mBuf : list T    (* FFT buffer, also read as the bins *)
}.

Definition sizeDFT (d : t) : Z := mSizeDFT d.

(** [(sizeDFT() + 2) >> 1] *)
Definition numBins (d : t) : Z := Z.shiftr (wrap (sizeDFT d + 2)) 1.

(** [T(2) / T(sizeDFT())] *)
Definition normForward (d : t) : T := div (of_u32 2) (of_u32 (sizeDFT d)).

(** [mBins[k]] read through the union. *)
Definition get_bin (buf : list T) (k : Z) : Complex T :=
  mkComplex (nth (Z.to_nat (2 * k)) buf zero)
            (nth (Z.to_nat (2 * k + 1)) buf zero).

(** [mBins[k] = c] written through the union. *)
Definition set_bin (buf : list T) (k : Z) (c : Complex T) : list T :=
  <[Z.to_nat (2 * k + 1) := im c]> (<[Z.to_nat (2 * k) := re c]> buf).

Definition bin (d : t) (k : Z) : Complex T := get_bin (mBuf d) k.

(** [void zero()] *)
Definition zero_bins (d : t) : t :=
  mk (mSizeDFT d) (mem.deepZero (mBuf d) (wrap (sizeDFT d + 2))).

(** [void zeroEnds()]: [bins()[0](0,0); bins()[numBins()-1](0,0);], where
    the call operator of [Complex<T>] assigns the real and the imaginary
    component. *)
Definition zeroEnds (d : t) : t :=
  let b1 := set_bin (mBuf d) 0 (mkComplex zero zero) in
  let b2 := set_bin b1 (wrap (numBins d - 1)) (mkComplex zero zero) in
  mk (mSizeDFT d) b2.
End DFTBase.
End DFTBase.

(** ** [DFT]: the sample-by-sample inverse path *)

Module DFT.
Section DFT.
(** [Bufs] is everything the transform stores besides its sizes and
    taps: the bins, the inverse sample buffer and the overlap-add
    buffer. *)
Context {T Bufs : Type}.

Record t := mk {
  mSizeWin : Z;
  mSizeHop : Z;
  mTapW : Z;
  mTapR : Z;
  bufs : Bufs;
  nInverse : nat  (* ghost: how many times [inverse] has run *)
}.

(** [virtual void inverse(float * dst)] is defined outside this file's
    source; it reads the object and rewrites its buffers. *)
Variable inverse : t -> Bufs.

(** [mBufInv[k]] *)
Variable bufInv : Bufs -> Z -> T.

Definition sizeHop (d : t) : Z := mSizeHop d.

(** [float operator()()] *)
Definition next_sample (d : t) : T * t :=
  let tap := wrap (mTapR d + 1) in
  let d1 := mk (mSizeWin d) (mSizeHop d) (mTapW d) tap (bufs d) (nInverse d) in
  let d2 :=
    if sizeHop d1 <=? tap
    then mk (mSizeWin d1) (mSizeHop d1) (mTapW d1) 0
            (inverse d1) (S (nInverse d1))
    else d1 in
  (bufInv (bufs d2) (mTapR d2), d2).

(** [bool inverseOnNext()]: [mTapR == (sizeHop() - 1)] *)
Definition inverseOnNext (d : t) : bool :=
  mTapR d =? wrap (sizeHop d - 1).
End DFT.
End DFT.

(** ** [DelayN<T>] of [Gamma/Containers.h] *)

Module DelayN.
Section DelayN.
Context {T : Type} `{Numeric T}.

Record t := mk { buf : list T; pos : Z }.

Definition size (d : t) : Z := Z.of_nat (length (buf d)).

(** Modelled from the spec: the delay line is a fixed-length circular
    buffer; feeding a sample returns the stored value at the current
    position and then stores the new sample there and advances. *)
Definition feed (d : t) (input : T) : T * t :=
  let dly := nth (Z.to_nat (pos d)) (buf d) zero in
  let p := pos d + 1 in
  (dly, mk (<[Z.to_nat (pos d) := input]> (buf d))
           (if size d <=? p then 0 else p)).

(** Modelled from the spec: [mDelay.resize(n); mDelay.assign(v)]
    reallocates the delay line to [n] elements and sets each of them to
    [v]; a resize resets the position to 0. *)
Definition resize_assign (d : t) (n : Z) (v : T) : t :=
  mk (replicate (Z.to_nat n) v) 0.
End DelayN.
End DelayN.

(** ** [SlidingDFT<T>] *)

Module SlidingDFT.
Section SlidingDFT.
Context {T D : Type} `{Numeric T} `{Numeric D} `{ComplexArith T D}.

Variable fresh : nat -> T.

Record t := mk {
  base : DFTBase.t (T := T);
  mBinLo : Z;
  mBinHi : Z;
  mDelay : DelayN.t (T := T);
  mF1 : Complex T;
  mFL : Complex T;
  mNorm : T      (* fwd transform normalization *)
}.

Definition sizeDFT (s : t) : Z := DFTBase.sizeDFT (base s).
Definition bin (s : t) (k : Z) : Complex T := DFTBase.bin (base s) k.

(** [double theta = M_2PI / this->sizeDFT();] *)
Definition theta (sizeDFT : Z) : D := div M_2PI (of_u32 sizeDFT).

(** [SlidingDFT& interval(uint32_t binLo, uint32_t binHi)] *)
Definition interval (s : t) (binLo binHi : Z) : t :=
  let th := theta (sizeDFT s) in
  mk (base s) binLo binHi (mDelay s)
     (fromPhase th)
     (fromPhase (mul th (of_u32 binLo)))
     (div (of_u32 2) (of_u32 (sizeDFT s))).

(** [void resize(uint32_t sizeDFT, uint32_t binLo, uint32_t binHi)] *)
Definition resize (s : t) (size binLo binHi : Z) : t :=
  let '(_, b1) :=
    mem.resize fresh (DFTBase.mBuf (base s))
      (wrap (DFTBase.mSizeDFT (base s) + 2)) (wrap (size + 2)) in
  let b2 := mem.deepZero b1 (wrap (size + 2)) in
  let dl := DelayN.resize_assign (mDelay s) size zero in
  interval
    (mk (DFTBase.mk size b2) (mBinLo s) (mBinHi s) dl
        (mF1 s) (mFL s) (mNorm s))
    binLo binHi.

(** The accessors to the bins that [DFTBase<T>] declares: [bins()], which
    takes no argument and returns the bin array, and [bin(k)], which
    takes the index and returns a reference to one bin. *)
Inductive accessor := acc_bins | acc_bin.

Definition params (a : accessor) : nat :=
  match a with
  | acc_bins => 0%nat
  | acc_bin => 1%nat
  end.

(** A call of an accessor with [nargs] arguments is well-formed when the
    accessor takes that many: none of them has default arguments or an
    overload of another arity. *)
Definition viable (a : accessor) (nargs : nat) : bool :=
  (params a =? nargs)%nat.

(** [Complex<T>& b = this->a(k)]: the index of the bin that [b] refers
    to, when the call is well-formed. *)
Definition bin_ref (a : accessor) (k : Z) : option Z :=
  if viable a 1 then Some k else None.

(** The body of the loop [for(k = mBinLo; k < mBinHi; ++k)], run [n]
    times from bin [k] with phasor [c], for the accessor [a] called in
    [Complex<T>& b = this->a(k)].  [k] stays below [mBinHi], so [++k]
    never wraps. *)
Fixpoint resonate (a : accessor) (F1 : Complex T) (dif : T) (n : nat)
    (k : Z) (c : Complex T) (buf : list T) : option (list T) :=
  match n with
  | O => Some buf
  | S n' =>
      match bin_ref a k with
      | None => None
      | Some i =>
          let b := DFTBase.get_bin buf i in
          let buf' := DFTBase.set_bin buf i (cadd_real (cmul b c) dif) in
          resonate a F1 dif n' (k + 1) (cmul c F1) buf'
      end
  end.

(** [void forward(T input)], for the accessor [a] that its loop calls.  A
    member function of a class template is instantiated as a whole: it
    exists for a sample type only if the accessor call in its body is
    well-formed, whether or not a run reaches that call. *)
Definition forward_with (a : accessor) (s : t) (input : T) : option t :=
  if viable a 1 then
    let '(dly, dl) := DelayN.feed (mDelay s) input in
    let dif := mul (sub input dly) (mNorm s) in
    let c := mFL s in
    match resonate a (mF1 s) dif (Z.to_nat (mBinHi s - mBinLo s))
            (mBinLo s) c (DFTBase.mBuf (base s)) with
    | Some buf =>
        Some (mk (DFTBase.mk (DFTBase.mSizeDFT (base s)) buf)
                 (mBinLo s) (mBinHi s) dl (mF1 s) (mFL s) (mNorm s))
    | None => None
    end
  else None.

(** [forward] as the source has it: the loop calls [this->bins(k)]. *)
Definition forward : t -> T -> option t := forward_with acc_bins.

(** The constructor: [DFTBase<T>()] with [mSizeDFT(0), mBuf(0)], then
    [mBinLo(0), mBinHi(0), mDelay(0)] and [resize].  The members [mF1],
    [mFL] and [mNorm] have no initialiser; [c0] and [n0] are their
    indeterminate values, overwritten by [interval]. *)
Definition create (c0 : Complex T) (n0 : T) (size binLo binHi : Z) : t :=
  resize (mk (DFTBase.mk 0 []) 0 0 (DelayN.mk [] 0) c0 c0 n0)
    size binLo binHi.

(** The phasor of bin [binLo + n]: [mFL] multiplied [n] times by
    [mF1]. *)
Fixpoint rotator (F1 FL : Complex T) (n : nat) : Complex T :=
  match n with
  | O => FL
  | S n' => cmul (rotator F1 FL n') F1
  end.

End SlidingDFT.
End SlidingDFT.

(** * Invariants and views

    What the constructors establish and the operations keep, and the
    readings of the buffers in which the properties below are stated. *)

Section Invariants.
Context {T D : Type} `{Numeric T} `{Numeric D} `{ComplexArith T D}.
Implicit Types (d : DFTBase.t (T := T)) (w : SlidingWindow.t (T := T)).
Implicit Types (s : SlidingDFT.t (T := T)) (hist : list T).

(** The buffer holds [sizeDFT() + 2] samples and that number is
    representable. *)
Definition DFTBase_wf d : Prop :=
  0 <= DFTBase.sizeDFT d /\ DFTBase.sizeDFT d + 2 < 2 ^ 32 /\
  length (DFTBase.mBuf d) = Z.to_nat (DFTBase.sizeDFT d + 2).

(** The write tap counts the samples written since the last hop and
    stays below the hop size; the hop fits in the window, whose buffer
    has [sizeWin()] slots. *)
Definition SlidingWindow_wf w : Prop :=
  0 <= SlidingWindow.mTapW w < SlidingWindow.mSizeHop w /\
  SlidingWindow.mSizeHop w <= SlidingWindow.mSizeWin w /\
  SlidingWindow.mSizeWin w < 2 ^ 32 /\
  length (SlidingWindow.mBuf w) = Z.to_nat (SlidingWindow.mSizeWin w).

(** The ring read oldest sample first: from the write tap to the end, then
    from the start to the write tap. *)
Definition logical w : list T :=
  drop (Z.to_nat (SlidingWindow.mTapW w)) (SlidingWindow.mBuf w)
    ++ take (Z.to_nat (SlidingWindow.mTapW w)) (SlidingWindow.mBuf w).

(** The write tap is inside the window, the hop counter below the hop
    size, and the buffer has [sizeWin()] slots. *)
Definition Ring_wf w : Prop :=
  0 <= SlidingWindow.mTapW w < SlidingWindow.mSizeWin w /\
  SlidingWindow.mSizeWin w < 2 ^ 32 /\
  0 <= SlidingWindow.mHopCnt w < SlidingWindow.mSizeHop w /\
  SlidingWindow.mSizeHop w < 2 ^ 32 /\
  length (SlidingWindow.mBuf w) = Z.to_nat (SlidingWindow.mSizeWin w).

(** The sample fed [n] calls before the next one, over the stream [hist]
    of samples fed so far; zero while fewer than [n] samples were fed. *)
Definition delayed (n : nat) hist : T :=
  nth (length hist) (replicate n zero ++ hist) zero.

(** A delay line of [n] slots that was zeroed and then fed [hist]: read
    from its position around, the ring is the last [n] samples of the
    zero-padded stream. *)
Definition Delay_tracks (dl : DelayN.t (T := T)) (n : Z) hist : Prop :=
  length (DelayN.buf dl) = Z.to_nat n /\
  0 <= DelayN.pos dl < n /\
  drop (Z.to_nat (DelayN.pos dl)) (DelayN.buf dl)
    ++ take (Z.to_nat (DelayN.pos dl)) (DelayN.buf dl)
  = drop (length hist) (replicate (Z.to_nat n) zero ++ hist).

(** The bin buffer holds [sizeDFT() + 2] samples. *)
Definition SlidingDFT_sized s : Prop :=
  length (DFTBase.mBuf (SlidingDFT.base s))
  = Z.to_nat (wrap (DFTBase.mSizeDFT (SlidingDFT.base s) + 2)).

(** A transform as [resize] and [interval] leave it: the bin buffer has
    [sizeDFT() + 2] slots, a non-empty interval lies within the bins, and
    the rotators and the norm are those of the current size and interval. *)
Definition SlidingDFT_wf s : Prop :=
  DFTBase_wf (SlidingDFT.base s) /\
  0 <= SlidingDFT.mBinLo s /\
  (SlidingDFT.mBinLo s < SlidingDFT.mBinHi s ->
   SlidingDFT.mBinHi s <= DFTBase.numBins (SlidingDFT.base s)) /\
  SlidingDFT.mF1 s = fromPhase (SlidingDFT.theta (SlidingDFT.sizeDFT s)) /\
  SlidingDFT.mFL s
  = fromPhase (mul (SlidingDFT.theta (SlidingDFT.sizeDFT s))
                   (of_u32 (SlidingDFT.mBinLo s))) /\
  SlidingDFT.mNorm s = div (of_u32 2) (of_u32 (SlidingDFT.sizeDFT s)).

(** The phasor [c_k] that [forward] applies to bin [k] of a transform of
    size [size] whose interval starts at [binLo]. *)
Definition phasor (size binLo k : Z) : Complex T :=
  SlidingDFT.rotator
    (fromPhase (SlidingDFT.theta size))
    (fromPhase (mul (SlidingDFT.theta size) (of_u32 binLo)))
    (Z.to_nat (k - binLo)).

End Invariants.

Section ReadTap.
Context {Bufs : Type}.

(** The read tap counts [0 .. sizeHop() - 1]. *)
Definition DFT_wf (d : DFT.t (Bufs := Bufs)) : Prop :=
  DFT.sizeHop d < 2 ^ 32 /\ 0 <= DFT.mTapR d < DFT.sizeHop d.
End ReadTap.

(** * Callers and runs

    How the classes are driven sample by sample, and the reference
    streams against which the runs are stated. *)

Section Runs.
Context {T : Type} `{Numeric T}.

(** The reference sliding window: [L] is the window so far, oldest sample
    first, [cnt] the number of samples since the last hop; every sample
    pushes the oldest one out, and every [hop]-th sample delivers the
    window. *)
Fixpoint hop_windows (hop cnt : Z) (L : list T) (xs : list T)
  : list (list T) :=
  match xs with
  | [] => []
  | x :: xs' =>
      let L' := drop 1 L ++ [x] in
      if cnt + 1 =? hop
      then L' :: hop_windows hop 0 L' xs'
      else hop_windows hop (cnt + 1) L' xs'
  end.

(** The reference block stream: [pending] holds the samples since the
    last block; every [hop]-th sample delivers the block. *)
Fixpoint blocks (hop : Z) (pending : list T) (xs : list T)
  : list (list T) :=
  match xs with
  | [] => []
  | x :: xs' =>
      let p := pending ++ [x] in
      if Z.of_nat (length p) =? hop
      then p :: blocks hop [] xs'
      else blocks hop p xs'
  end.

(** A caller of the rotating feed: [if(win(x)) use(win.window())]. *)
Fixpoint feed_windows (w : SlidingWindow.t (T := T)) (xs : list T)
  : list (list T) :=
  match xs with
  | [] => []
  | x :: xs' =>
      let '(b, w1) := SlidingWindow.feed w x in
      if b then SlidingWindow.window w1 :: feed_windows w1 xs'
      else feed_windows w1 xs'
  end.

(** A caller of the copying feed: [if(win(dst, x)) use(dst)], reading the
    [sizeWin()] slots that a ready call fills. *)
Fixpoint feedCopy_windows (w : SlidingWindow.t (T := T)) (dst : list T)
    (xs : list T) : list (list T) :=
  match xs with
  | [] => []
  | x :: xs' =>
      let '(b, w1, d1) := SlidingWindow.feedCopy w dst x in
      if b
      then take (Z.to_nat (SlidingWindow.sizeWin w1)) d1
             :: feedCopy_windows w1 d1 xs'
      else feedCopy_windows w1 d1 xs'
  end.
End Runs.

(** ** [DFTBase<T>]: the auxiliary buffers *)

Module DFTAux.
Section DFTAux.
Context {T : Type} `{Numeric T}.
Variable fresh : nat -> T.

(** [DFTBase] with the members [mNumAux] and [mAux]. *)
Record t := mk {
  base : DFTBase.t (T := T);
  mNumAux : Z;
  mAux : list T     (* aux buffers *)
}.

Definition numBins (d : t) : Z := DFTBase.numBins (base d).

(** [T * aux(uint32_t num)]: [mAux + numBins() * num], as an offset into
    [mAux]. *)
Definition aux (d : t) (num : Z) : Z := wrap (numBins d * num).

(** [void zeroAux()]: [mem::deepZero(mAux, mNumAux * numBins())] *)
Definition zeroAux (d : t) : t :=
  mk (base d) (mNumAux d)
     (mem.deepZero (mAux d) (wrap (mNumAux d * numBins d))).

(** [void zeroAux(uint32_t num)]: [mem::deepZero(aux(num), numBins())] *)
Definition zeroAux_num (d : t) (num : Z) : t :=
  let off := Z.to_nat (aux d num) in
  mk (base d) (mNumAux d)
     (take off (mAux d) ++ mem.deepZero (drop off (mAux d)) (numBins d)).

End DFTAux.
End DFTAux.

Section AuxInvariant.
Context {T : Type} `{Numeric T}.

(** The auxiliary storage holds [mNumAux] buffers of [numBins()] samples,
    a representable number of samples in all. *)
Definition DFTAux_wf (d : DFTAux.t (T := T)) : Prop :=
  DFTBase_wf (DFTAux.base d) /\
  0 <= DFTAux.mNumAux d /\
  DFTAux.mNumAux d * DFTAux.numBins d < 2 ^ 32 /\
  length (DFTAux.mAux d) = Z.to_nat (DFTAux.mNumAux d * DFTAux.numBins d).
End AuxInvariant.

(** ** [DFT] and [STFT]: the sample-by-sample forward path *)

Module STFT.
Section STFT.
(** [More] is everything the transforms store besides the members
    below: the spectrum format, the FFT, the phases and the windows. *)
Context {T More : Type} `{Numeric T}.

Record t := mk {
  mBuf : list T;       (* DFTBase: FFT buffer *)
  mSizeWin : Z;        (* DFT: samples in analysis window *)
  mSizeHop : Z;        (* DFT: samples between forward transforms *)
  mTapW : Z;           (* DFT: write tap *)
  mSlide : SlidingWindow.t (T := T);   (* STFT *)
  more : More;
  fwdLog : list (list T)
    (* ghost: the windows [src[0 .. sizeWin())] handed to [forward] *)
}.

(** [void forward(const float * src)] of [DFT] and of [STFT] are defined
    outside this file's source; they read the object and rewrite the
    transform buffer and the other members. *)
Variable DFT_forward : t -> list T * More.
Variable STFT_forward : t -> list T * More.

Definition sizeHop (d : t) : Z := mSizeHop d.
Definition sizeWin (d : t) : Z := mSizeWin d.

(** [bufPos()] is [mBuf + 1]. *)
Definition bufPos (d : t) : list T := drop 1 (mBuf d).

(** The call [forward(bufPos())]; the window handed over is logged. *)
Definition call_forward (forward : t -> list T * More) (d : t) : t :=
  let d1 := mk (mBuf d) (mSizeWin d) (mSizeHop d) (mTapW d) (mSlide d)
               (more d)
               (fwdLog d ++ [take (Z.to_nat (sizeWin d)) (bufPos d)]) in
  let '(buf, m) := forward d1 in
  mk buf (mSizeWin d1) (mSizeHop d1) (mTapW d1) (mSlide d1) m (fwdLog d1).

(** [bool DFT::operator()(float input)] *)
Definition DFT_feed (d : t) (input : T) : bool * t :=
  let buf := <[Z.to_nat (1 + mTapW d) := input]> (mBuf d) in
  let tap := wrap (mTapW d + 1) in
  let d1 := mk buf (mSizeWin d) (mSizeHop d) tap (mSlide d) (more d)
               (fwdLog d) in
  if sizeHop d1 <=? tap
  then
    let d2 := call_forward DFT_forward d1 in
    (true, mk (mBuf d2) (mSizeWin d2) (mSizeHop d2) 0 (mSlide d2)
              (more d2) (fwdLog d2))
  else (false, d1).

(** [bool STFT::operator()(float input)]: the sliding window copies into
    [bufPos()], that is into [mBuf] from slot 1 on. *)
Definition feed (d : t) (input : T) : bool * t :=
  let '(b, sl, dst) := SlidingWindow.feedCopy (mSlide d) (bufPos d) input in
  let d1 := mk (take 1 (mBuf d) ++ dst) (mSizeWin d) (mSizeHop d) (mTapW d)
               sl (more d) (fwdLog d) in
  if b then (true, call_forward STFT_forward d1) else (false, d1).

Definition DFT_feeds (d : t) (xs : list T) : t :=
  foldl (fun d x => snd (DFT_feed d x)) d xs.

Definition feeds (d : t) (xs : list T) : t :=
  foldl (fun d x => snd (feed d x)) d xs.
End STFT.
End STFT.

Section ForwardInvariants.
Context {T More : Type} `{Numeric T}.
Implicit Types d : STFT.t (T := T) (More := More).

(** The samples of the current hop: the slots of [bufPos()] below the
    write tap. *)
Definition pending d : list T :=
  take (Z.to_nat (STFT.mTapW d)) (STFT.bufPos d).

(** A [DFT]: the hop is the window, the write tap counts below it, and
    the window fits in [bufPos()]. *)
Definition DFT_feed_wf d : Prop :=
  0 <= STFT.mTapW d < STFT.mSizeHop d /\
  STFT.mSizeHop d < 2 ^ 32 /\
  STFT.mSizeWin d = STFT.mSizeHop d /\
  (Z.to_nat (STFT.mSizeWin d) + 1 <= length (STFT.mBuf d))%nat.

(** An [STFT]: the sliding window is within its invariant and has the
    window size of the transform, and the window fits in [bufPos()]. *)
Definition STFT_feed_wf d : Prop :=
  Ring_wf (STFT.mSlide d) /\
  SlidingWindow.mSizeWin (STFT.mSlide d) = STFT.mSizeWin d /\
  (Z.to_nat (STFT.mSizeWin d) + 1 <= length (STFT.mBuf d))%nat.

(** [forward] transforms in place: the buffer keeps its length. *)
Definition keeps_length (forward : STFT.t -> list T * More) : Prop :=
  forall d, length (fst (forward d)) = length (STFT.mBuf d).
End ForwardInvariants.

(** ** [DFT]: runs of the inverse path *)

Section InverseRuns.
Context {T Bufs : Type}.
Variable inverse : DFT.t (Bufs := Bufs) -> Bufs.
Variable bufInv : Bufs -> Z -> T.

(** [n] calls of [float operator()()]. *)
Fixpoint next_samples (n : nat) (d : DFT.t (Bufs := Bufs))
  : DFT.t (Bufs := Bufs) :=
  match n with
  | O => d
  | S n' => next_samples n' (snd (DFT.next_sample inverse bufInv d))
  end.
End InverseRuns.

(** * Properties *)

(** ** Unsigned arithmetic and list helpers *)

Lemma wrap_small z : is_u32 z -> wrap z = z.
Proof. intros Hz. unfold wrap. apply Z.mod_small. exact Hz. Qed.

Lemma wrap_is_u32 z : is_u32 (wrap z).
Proof. unfold wrap, is_u32. apply Z.mod_pos_bound. lia. Qed.

Lemma clamp_contract : clip_contract clamp.
Proof.
  intros v hi lo Hle. unfold clamp.
  destruct (Z.ltb_spec v lo), (Z.ltb_spec hi v); repeat split; intros; lia.
Qed.

(** ** [DFTBase]: the number of bins *)

Section DFTBaseFacts.
Context {T : Type} `{Numeric T}.
Implicit Types d : DFTBase.t (T := T).

Lemma shiftr1_div2 z : Z.shiftr z 1 = z / 2.
Proof. rewrite Z.shiftr_div_pow2 by lia. reflexivity. Qed.

Lemma numBins_small d :
  0 <= DFTBase.sizeDFT d -> DFTBase.sizeDFT d + 2 < 2 ^ 32 ->
  DFTBase.numBins d = (DFTBase.sizeDFT d + 2) / 2 /\
  1 <= DFTBase.numBins d /\
  2 * DFTBase.numBins d <= DFTBase.sizeDFT d + 2.
Proof.
  intros H0 Hlt. unfold DFTBase.numBins. rewrite shiftr1_div2.
  rewrite wrap_small by (unfold is_u32; lia).
  repeat split.
  - apply Z.div_le_lower_bound; lia.
  - apply Z.mul_div_le; lia.
Qed.

(** C8: [numBins()] is [(sizeDFT() + 2) >> 1], which is the unsigned
    quotient [(sizeDFT() + 2) / 2]; whenever [sizeDFT() + 2] is
    representable this is the integer quotient of the transform size
    plus two by two, there is at least one bin, and the bins [0] to
    [numBins() - 1] fit in the [sizeDFT() + 2] slots of the buffer. *)
Theorem numBins_spec d :
  is_u32 (DFTBase.sizeDFT d) ->
  DFTBase.numBins d = Z.shiftr (wrap (DFTBase.sizeDFT d + 2)) 1 /\
  DFTBase.numBins d = wrap (DFTBase.sizeDFT d + 2) / 2 /\
  (DFTBase.sizeDFT d + 2 < 2 ^ 32 ->
     DFTBase.numBins d = (DFTBase.sizeDFT d + 2) / 2 /\
     1 <= DFTBase.numBins d /\
     2 * DFTBase.numBins d <= DFTBase.sizeDFT d + 2).
Proof.
  intros Hs. unfold DFTBase.numBins. split; [reflexivity|].
  split; [apply shiftr1_div2|].
  intros Hlt. unfold is_u32 in Hs.
  apply (numBins_small d); lia.
Qed.
End DFTBaseFacts.

Lemma numBins_spec_witness :
  DFTBase.numBins (DFTBase.mk 8 (replicate 10 0)) = 10 / 2.
Proof.
  pose proof (numBins_spec (DFTBase.mk 8 (replicate 10 0))) as Hn.
  destruct Hn as (_ & _ & Hn); [unfold is_u32; simpl; lia|].
  destruct Hn as (Hn & _); [simpl; lia|]. exact Hn.
Defined.

(** ** [SlidingWindow]: the hop size *)

Section HopSize.
Context {T : Type} `{Numeric T}.
Variable clip : Z -> Z -> Z -> Z.
Hypothesis clip_ok : clip_contract clip.
Implicit Types w : SlidingWindow.t (T := T).

(** C7: [sizeHop(size)] stores the requested size clamped into
    [[1, sizeWin()]], that is [min(max(size, 1), sizeWin())], for every
    requested size; it always returns a state, whose other members are
    those of the state before. *)
Theorem sizeHop_clamps w size :
  1 <= SlidingWindow.sizeWin w ->
  let w' := SlidingWindow.set_sizeHop clip w size in
  SlidingWindow.sizeHop w' = Z.min (Z.max size 1) (SlidingWindow.sizeWin w) /\
  1 <= SlidingWindow.sizeHop w' <= SlidingWindow.sizeWin w /\
  SlidingWindow.mBuf w' = SlidingWindow.mBuf w /\
  SlidingWindow.mSizeWin w' = SlidingWindow.mSizeWin w /\
  SlidingWindow.mTapW w' = SlidingWindow.mTapW w /\
  SlidingWindow.mHopCnt w' = SlidingWindow.mHopCnt w.
Proof.
  intros Hwin. cbn.
  unfold SlidingWindow.sizeHop, SlidingWindow.sizeWin in *. cbn.
  destruct (clip_ok size (SlidingWindow.mSizeWin w) 1 Hwin) as (Hlo & Hhi & Hin).
  assert (Hc : clip size (SlidingWindow.mSizeWin w) 1
               = Z.min (Z.max size 1) (SlidingWindow.mSizeWin w)).
  { destruct (Z.lt_ge_cases size 1) as [Hlt|Hge].
    - rewrite Hlo by exact Hlt. lia.
    - destruct (Z.lt_ge_cases (SlidingWindow.mSizeWin w) size) as [Hgt|Hle].
      + rewrite Hhi by exact Hgt. lia.
      + rewrite Hin by lia. lia. }
  rewrite Hc. repeat split; lia.
Qed.
End HopSize.

Lemma sizeHop_clamps_witness :
  SlidingWindow.sizeHop
    (SlidingWindow.set_sizeHop clamp (SlidingWindow.mk [0; 0; 0; 0] 4 4 0 0) 0)
  = 1 /\
  SlidingWindow.sizeHop
    (SlidingWindow.set_sizeHop clamp (SlidingWindow.mk [0; 0; 0; 0] 4 4 0 0) 9)
  = 4.
Proof.
  split.
  - exact (proj1 (sizeHop_clamps clamp clamp_contract
                    (SlidingWindow.mk [0; 0; 0; 0] 4 4 0 0) 0 ltac:(cbn; lia))).
  - exact (proj1 (sizeHop_clamps clamp clamp_contract
                    (SlidingWindow.mk [0; 0; 0; 0] 4 4 0 0) 9 ltac:(cbn; lia))).
Defined.

(** ** Reading and writing bins through the sample buffer *)

Section BinAccess.
Context {T : Type} `{Numeric T}.
Implicit Types (buf : list T) (c : Complex T).

Lemma nth_insert_eq buf (i : nat) (x d : T) :
  (i < length buf)%nat -> nth i (<[i := x]> buf) d = x.
Proof.
  intros Hi. rewrite nth_lookup, list_lookup_insert_eq by exact Hi.
  reflexivity.
Qed.

Lemma nth_insert_ne buf (i j : nat) (x d : T) :
  i <> j -> nth j (<[i := x]> buf) d = nth j buf d.
Proof.
  intros Hij. rewrite !nth_lookup, list_lookup_insert_ne by exact Hij.
  reflexivity.
Qed.

Lemma length_set_bin buf k c :
  length (DFTBase.set_bin buf k c) = length buf.
Proof. unfold DFTBase.set_bin. rewrite !length_insert. reflexivity. Qed.

Lemma get_set_bin_same buf k c :
  0 <= k -> (Z.to_nat (2 * k + 1) < length buf)%nat ->
  DFTBase.get_bin (DFTBase.set_bin buf k c) k = c.
Proof.
  intros Hk Hlen. unfold DFTBase.get_bin, DFTBase.set_bin.
  destruct c as [cr ci]. cbn. f_equal.
  - rewrite nth_insert_ne by lia. apply nth_insert_eq. lia.
  - apply nth_insert_eq. rewrite length_insert. exact Hlen.
Qed.

Lemma get_set_bin_other buf k j c :
  0 <= k -> 0 <= j -> k <> j ->
  DFTBase.get_bin (DFTBase.set_bin buf k c) j = DFTBase.get_bin buf j.
Proof.
  intros Hk Hj Hkj. unfold DFTBase.get_bin, DFTBase.set_bin. f_equal.
  - rewrite !nth_insert_ne by lia. reflexivity.
  - rewrite !nth_insert_ne by lia. reflexivity.
Qed.
End BinAccess.

(** ** [DFTBase::zeroEnds] *)

Section ZeroEnds.
Context {T : Type} `{Numeric T}.
Implicit Types d : DFTBase.t (T := T).


Lemma numBins_range d :
  DFTBase_wf d ->
  1 <= DFTBase.numBins d /\ 2 * DFTBase.numBins d <= DFTBase.sizeDFT d + 2.
Proof.
  intros (Hs0 & Hs1 & _).
  destruct (numBins_small d Hs0 Hs1) as (_ & Hlo & Hhi). split; assumption.
Qed.

Lemma zeroEnds_bins d :
  DFTBase_wf d ->
  let d' := DFTBase.zeroEnds d in
  DFTBase.bin d' 0 = mkComplex zero zero /\
  DFTBase.bin d' (DFTBase.numBins d - 1) = mkComplex zero zero /\
  (forall k, 0 < k < DFTBase.numBins d - 1 ->
     DFTBase.bin d' k = DFTBase.bin d k).
Proof.
  intros Hwf. pose proof (numBins_range d Hwf) as [Hnb1 Hnb2].
  destruct Hwf as (H0 & H1 & Hlen).
  cbn. unfold DFTBase.bin, DFTBase.zeroEnds. cbn.
  rewrite (wrap_small (DFTBase.numBins d - 1)) by (unfold is_u32; lia).
  set (z := mkComplex zero zero).
  assert (Hlen1 : (Z.to_nat (2 * 0 + 1) < length (DFTBase.mBuf d))%nat) by lia.
  assert (Hlen2 : (Z.to_nat (2 * (DFTBase.numBins d - 1) + 1)
                   < length (DFTBase.set_bin (DFTBase.mBuf d) 0 z))%nat).
  { rewrite length_set_bin. lia. }
  repeat split.
  - destruct (Z.eq_dec (DFTBase.numBins d - 1) 0) as [He|Hne].
    + rewrite He in *. apply get_set_bin_same; [lia|exact Hlen2].
    + rewrite get_set_bin_other by lia.
      apply get_set_bin_same; [lia|exact Hlen1].
  - apply get_set_bin_same; [lia|exact Hlen2].
  - intros k Hk. rewrite !get_set_bin_other by lia. reflexivity.
Qed.

(** C5: after [zeroEnds()], bin 0 and bin [numBins() - 1] are both
    [(0, 0)] and every bin strictly between them is as before. *)
Theorem zeroEnds_spec d :
  DFTBase_wf d ->
  let d' := DFTBase.zeroEnds d in
  DFTBase.bin d' 0 = mkComplex zero zero /\
  DFTBase.bin d' (DFTBase.numBins d - 1) = mkComplex zero zero /\
  (forall k, 0 < k < DFTBase.numBins d - 1 ->
     DFTBase.bin d' k = DFTBase.bin d k) /\
  DFTBase.numBins d' = DFTBase.numBins d.
Proof.
  intros Hwf. destruct (zeroEnds_bins d Hwf) as (Ha & Hb & Hc).
  cbn. repeat split; assumption.
Qed.

(** C4, as the code has it: after [zeroEnds()], bin 0 and bin
    [numBins() - 1] have a zero imaginary component and a zero real
    component; the real component is the one from before the call only
    when that was zero already. *)
Theorem zeroEnds_clears_both d :
  DFTBase_wf d ->
  let d' := DFTBase.zeroEnds d in
  let last := DFTBase.numBins d - 1 in
  (im (DFTBase.bin d' 0) = zero /\ im (DFTBase.bin d' last) = zero) /\
  (re (DFTBase.bin d' 0) = zero /\ re (DFTBase.bin d' last) = zero) /\
  (re (DFTBase.bin d' 0) = re (DFTBase.bin d 0) <->
     re (DFTBase.bin d 0) = zero) /\
  (re (DFTBase.bin d' last) = re (DFTBase.bin d last) <->
     re (DFTBase.bin d last) = zero).
Proof.
  intros Hwf d' last. destruct (zeroEnds_bins d Hwf) as (Ha & Hb & _).
  fold d' in Ha, Hb. fold last in Hb. rewrite Ha, Hb. cbn.
  repeat split; intros; congruence.
Qed.
End ZeroEnds.

Lemma zeroEnds_spec_witness :
  DFTBase.bin (DFTBase.zeroEnds (DFTBase.mk 4 [3; 4; 5; 6; 7; 8])) 1
  = mkComplex 5 6.
Proof.
  destruct (zeroEnds_spec (DFTBase.mk 4 [3; 4; 5; 6; 7; 8])) as (_ & _ & Hk & _).
  - unfold DFTBase_wf. cbn. lia.
  - apply (Hk 1). vm_compute. split; reflexivity.
Defined.

Lemma zeroEnds_clears_both_witness :
  re (DFTBase.bin (DFTBase.zeroEnds (DFTBase.mk 4 [3; 4; 5; 6; 7; 8])) 0) = 0.
Proof.
  destruct (zeroEnds_clears_both (DFTBase.mk 4 [3; 4; 5; 6; 7; 8]))
    as (_ & (Hre & _) & _).
  - unfold DFTBase_wf. cbn. lia.
  - exact Hre.
Defined.

(** C4, as stated, fails: the real value of the end bins is not kept.  With
    [sizeDFT() = 4] and bins [(3,4), (5,6), (7,8)], bin 0 is [(0,0)] after
    the call, so its real component [3] is lost. *)
Lemma zeroEnds_preserves_real_counterexample :
  let d := DFTBase.mk 4 [3; 4; 5; 6; 7; 8] in
  let d' := DFTBase.zeroEnds d in
  ~ (im (DFTBase.bin d' 0) = 0 /\
     im (DFTBase.bin d' (DFTBase.numBins d - 1)) = 0 /\
     re (DFTBase.bin d' 0) = re (DFTBase.bin d 0) /\
     re (DFTBase.bin d' (DFTBase.numBins d - 1))
       = re (DFTBase.bin d (DFTBase.numBins d - 1))).
Proof. vm_compute. intros (_ & _ & Hre & _). discriminate Hre. Qed.

(** ** [DFT]: the read tap *)

Section InverseTap.
Context {T Bufs : Type}.
Variable inverse : DFT.t (Bufs := Bufs) -> Bufs.
Variable bufInv : Bufs -> Z -> T.
Implicit Types d : DFT.t (Bufs := Bufs).


Lemma next_sample_wf d :
  DFT_wf d -> DFT_wf (snd (DFT.next_sample inverse bufInv d)).
Proof.
  unfold DFT_wf, DFT.next_sample, DFT.sizeHop. intros [Hh Ht]. cbn.
  rewrite wrap_small by (unfold is_u32; lia).
  destruct (Z.leb_spec (DFT.mSizeHop d) (DFT.mTapR d + 1)); cbn; lia.
Qed.

Lemma next_sample_inverse d :
  DFT_wf d ->
  DFT.nInverse (snd (DFT.next_sample inverse bufInv d))
  = if DFT.mTapR d =? DFT.sizeHop d - 1
    then S (DFT.nInverse d) else DFT.nInverse d.
Proof.
  unfold DFT_wf, DFT.next_sample, DFT.sizeHop. intros [Hh Ht]. cbn.
  rewrite wrap_small by (unfold is_u32; lia).
  destruct (Z.leb_spec (DFT.mSizeHop d) (DFT.mTapR d + 1));
    destruct (Z.eqb_spec (DFT.mTapR d) (DFT.mSizeHop d - 1));
    cbn; try reflexivity; lia.
Qed.

(** C9: [inverseOnNext()] is true exactly when the read tap equals
    [sizeHop() - 1], and that is exactly when the next call of the
    sample operator runs the inverse transform. *)
Theorem inverseOnNext_spec d :
  DFT_wf d ->
  (DFT.inverseOnNext d = true <-> DFT.mTapR d = DFT.sizeHop d - 1) /\
  (DFT.inverseOnNext d = true <->
     DFT.nInverse (snd (DFT.next_sample inverse bufInv d))
     = S (DFT.nInverse d)) /\
  (DFT.inverseOnNext d = false <->
     DFT.nInverse (snd (DFT.next_sample inverse bufInv d))
     = DFT.nInverse d).
Proof.
  intros Hwf. rewrite (next_sample_inverse d Hwf).
  destruct Hwf as [Hh Ht]. unfold DFT.inverseOnNext.
  rewrite (wrap_small (DFT.sizeHop d - 1)) by (unfold is_u32; lia).
  destruct (Z.eqb_spec (DFT.mTapR d) (DFT.sizeHop d - 1)) as [He|Hne].
  - repeat split; intros; try reflexivity; try assumption; try lia;
      discriminate.
  - repeat split; intros; try reflexivity; try congruence; try lia.
Qed.
End InverseTap.

Lemma inverseOnNext_spec_witness :
  DFT.inverseOnNext (DFT.mk 4 4 0 3 ([] : list Z) 0%nat) = true /\
  DFT.inverseOnNext (DFT.mk 4 4 0 2 ([] : list Z) 0%nat) = false.
Proof.
  split.
  - apply (inverseOnNext_spec (fun _ => []) (fun b k => nth (Z.to_nat k) b 0)
             (DFT.mk 4 4 0 3 ([] : list Z) 0%nat)).
    + unfold DFT_wf. cbn. lia.
    + reflexivity.
  - apply (inverseOnNext_spec (fun _ => []) (fun b k => nth (Z.to_nat k) b 0)
             (DFT.mk 4 4 0 2 ([] : list Z) 0%nat)).
    + unfold DFT_wf. cbn. lia.
    + reflexivity.
Defined.

(** ** [SlidingDFT]: an empty interval *)

Section EmptyInterval.
Context {T D : Type} `{Numeric T} `{Numeric D} `{ComplexArith T D}.
Variable fresh : nat -> T.
Implicit Types s : SlidingDFT.t (T := T).

Lemma interval_stores s lo hi :
  SlidingDFT.mBinLo (SlidingDFT.interval s lo hi) = lo /\
  SlidingDFT.mBinHi (SlidingDFT.interval s lo hi) = hi /\
  SlidingDFT.base (SlidingDFT.interval s lo hi) = SlidingDFT.base s /\
  SlidingDFT.mDelay (SlidingDFT.interval s lo hi) = SlidingDFT.mDelay s.
Proof. repeat split. Qed.

Lemma resize_stores s n lo hi :
  SlidingDFT.mBinLo (SlidingDFT.resize fresh s n lo hi) = lo /\
  SlidingDFT.mBinHi (SlidingDFT.resize fresh s n lo hi) = hi.
Proof.
  unfold SlidingDFT.resize.
  destruct (mem.resize _ _ _ _) as [ok b1]. split; reflexivity.
Qed.

(** C10: [interval] and [resize] store whatever endpoints they are
    given, unchecked against each other and against [numBins()]; but
    [forward], as written, is ill-formed for every sample type, so a
    transform configured with [binHi <= binLo], like any other, has no
    call of [forward] that could leave its bins as they are and advance
    its delay line. *)
Theorem empty_interval_forward_ill_formed s size binLo binHi input :
  (SlidingDFT.mBinLo (SlidingDFT.interval s binLo binHi) = binLo /\
   SlidingDFT.mBinHi (SlidingDFT.interval s binLo binHi) = binHi) /\
  (SlidingDFT.mBinLo (SlidingDFT.resize fresh s size binLo binHi) = binLo /\
   SlidingDFT.mBinHi (SlidingDFT.resize fresh s size binLo binHi) = binHi) /\
  SlidingDFT.forward (SlidingDFT.interval s binLo binHi) input = None /\
  SlidingDFT.forward (SlidingDFT.resize fresh s size binLo binHi) input = None.
Proof.
  split; [split; reflexivity|]. split; [apply resize_stores|].
  split; reflexivity.
Qed.

(** With [bin(k)] in the place of [bins(k)], an empty interval leaves the
    bin buffer as it was and still feeds the sample to the delay line. *)
Lemma forward_bin_empty_interval s input :
  SlidingDFT.mBinHi s <= SlidingDFT.mBinLo s ->
  exists s',
    SlidingDFT.forward_with SlidingDFT.acc_bin s input = Some s' /\
    SlidingDFT.base s' = SlidingDFT.base s /\
    SlidingDFT.mDelay s' = snd (DelayN.feed (SlidingDFT.mDelay s) input).
Proof.
  intros Hle. unfold SlidingDFT.forward_with.
  cbn [SlidingDFT.viable SlidingDFT.params Nat.eqb].
  destruct (DelayN.feed (SlidingDFT.mDelay s) input) as [dly dl].
  replace (Z.to_nat (SlidingDFT.mBinHi s - SlidingDFT.mBinLo s))
    with 0%nat by lia.
  cbn [SlidingDFT.resonate]. eexists. split; [reflexivity|].
  cbn [SlidingDFT.base SlidingDFT.mDelay snd].
  destruct (SlidingDFT.base s). split; reflexivity.
Qed.
End EmptyInterval.

(** ** What a resize resets *)

Section Resize.
Context {T D : Type} `{Numeric T} `{Numeric D} `{ComplexArith T D}.
Variable clip : Z -> Z -> Z -> Z.
Variable fresh : nat -> T.

Lemma deepZero_all (arr : list T) n :
  length arr = Z.to_nat n ->
  mem.deepZero arr n = replicate (Z.to_nat n) zero.
Proof.
  intros Hlen. unfold mem.deepZero.
  rewrite drop_ge by lia. rewrite app_nil_r. f_equal. lia.
Qed.

Lemma length_mem_resize (arr : list T) now new :
  length arr = Z.to_nat now ->
  length (snd (mem.resize fresh arr now new)) = Z.to_nat new.
Proof.
  intros Hlen. unfold mem.resize.
  destruct (Z.eqb_spec now new) as [->|Hne]; cbn; [exact Hlen|].
  rewrite length_app, length_take, length_fmap, length_seq. lia.
Qed.


(** C6, as the code has it: [SlidingWindow::resize] resets the write
    tap to 0; the zeroing is the constructor's, which leaves a buffer of
    [winSize] zeros with write tap and hop counter 0;
    [SlidingDFT::resize] zeroes the whole bin buffer and leaves a delay
    line of [sizeDFT] zeros at position 0. *)
Theorem resize_resets :
  (forall (w : SlidingWindow.t (T := T)) winSize hopSize,
     SlidingWindow.mTapW (SlidingWindow.resize clip fresh w winSize hopSize)
     = 0) /\
  (forall tapW0 winSize hopSize,
     let w := SlidingWindow.create clip fresh tapW0 winSize hopSize in
     SlidingWindow.window w = replicate (Z.to_nat winSize) zero /\
     SlidingWindow.sizeWin w = winSize /\
     SlidingWindow.mTapW w = 0 /\
     SlidingWindow.mHopCnt w = 0) /\
  (forall (s : SlidingDFT.t (T := T)) size binLo binHi,
     SlidingDFT_sized s ->
     let s' := SlidingDFT.resize fresh s size binLo binHi in
     DFTBase.mBuf (SlidingDFT.base s')
     = replicate (Z.to_nat (wrap (size + 2))) zero /\
     SlidingDFT.sizeDFT s' = size /\
     SlidingDFT.mDelay s' = DelayN.mk (replicate (Z.to_nat size) zero) 0).
Proof.
  split; [|split].
  - intros w winSize hopSize. reflexivity.
  - intros tapW0 winSize hopSize w.
    unfold w, SlidingWindow.create, SlidingWindow.resize,
      SlidingWindow.set_sizeHop, SlidingWindow.set_sizeWin,
      SlidingWindow.window, SlidingWindow.sizeWin, mem.resize.
    cbn [SlidingWindow.mBuf SlidingWindow.mSizeWin].
    destruct (Z.eqb_spec 0 winSize) as [<-|Hne]; cbn.
    + repeat split.
    + rewrite take_nil, app_nil_l, Nat.sub_0_r.
      rewrite deepZero_all by (rewrite length_fmap, length_seq; reflexivity).
      repeat split.
  - intros s size binLo binHi Hs s'. unfold s', SlidingDFT.resize.
    pose proof (length_mem_resize (DFTBase.mBuf (SlidingDFT.base s))
                  (wrap (DFTBase.mSizeDFT (SlidingDFT.base s) + 2))
                  (wrap (size + 2)) Hs) as Hlen.
    destruct (mem.resize _ _ _ _) as [ok b1]. cbn in Hlen. cbn.
    rewrite deepZero_all by exact Hlen. repeat split.
Qed.
End Resize.

Lemma resize_resets_witness :
  let s := SlidingDFT.mk (DFTBase.mk 2 [3; 4; 5; 6]) 0 2
             (DelayN.mk [7; 8] 1) (mkComplex 1 0) (mkComplex 1 0) 1 in
  DFTBase.mBuf (SlidingDFT.base (SlidingDFT.resize (fun _ => 9) s 4 0 3))
  = [0; 0; 0; 0; 0; 0].
Proof.
  intros s.
  destruct (resize_resets clamp (fun _ => 9)) as (_ & _ & Hr).
  destruct (Hr s 4 0 3) as (Hbuf & _).
  - unfold SlidingDFT_sized. vm_compute. reflexivity.
  - exact Hbuf.
Defined.

(** C6, as stated, fails for [SlidingWindow::resize]: a window of size 2
    and hop 2 that has taken one sample through the copying feed holds
    [7; 0] with hop counter 1; resizing it to the same sizes leaves the
    buffer and the hop counter as they are. *)
Lemma resize_zeroes_counterexample :
  let fresh := fun _ : nat => 9 in
  let w0 := snd (fst (SlidingWindow.feedCopy
                        (SlidingWindow.create clamp fresh 0 2 2) [0; 0] 7)) in
  let w := SlidingWindow.resize clamp fresh w0 2 2 in
  SlidingWindow.window w = [7; 0] /\ SlidingWindow.mHopCnt w = 1 /\
  ~ (SlidingWindow.window w = [0; 0] /\
     SlidingWindow.mTapW w = 0 /\ SlidingWindow.mHopCnt w = 0).
Proof.
  vm_compute. split; [reflexivity|]. split; [reflexivity|].
  intros (Hbuf & _). discriminate Hbuf.
Qed.

(** ** [SlidingWindow]: the rotating feed *)

Section Feed.
Context {T : Type} `{Numeric T}.
Implicit Types w : SlidingWindow.t (T := T).


Lemma rotateLeft_whole (arr : list T) order len :
  length arr = Z.to_nat len ->
  mem.rotateLeft order arr len = rotate (Z.to_nat order) arr.
Proof.
  intros Hlen. unfold mem.rotateLeft.
  rewrite take_ge, drop_ge, app_nil_r by lia. reflexivity.
Qed.

Lemma feed_step w x :
  SlidingWindow_wf w ->
  let written := <[Z.to_nat (SlidingWindow.mTapW w) := x]> (SlidingWindow.mBuf w) in
  let hop := SlidingWindow.mSizeHop w in
  SlidingWindow.feed w x =
    if SlidingWindow.mTapW w + 1 =? hop
    then (true, SlidingWindow.mk (rotate (Z.to_nat hop) written)
                  (SlidingWindow.mSizeWin w) hop 0 (SlidingWindow.mHopCnt w))
    else (false, SlidingWindow.mk written
                   (SlidingWindow.mSizeWin w) hop
                   (SlidingWindow.mTapW w + 1) (SlidingWindow.mHopCnt w)).
Proof.
  intros (Ht & Hh & Hw & Hlen). cbn.
  unfold SlidingWindow.feed, SlidingWindow.sizeHop, SlidingWindow.sizeWin.
  rewrite wrap_small by (unfold is_u32; lia).
  destruct (Z.leb_spec (SlidingWindow.mSizeHop w) (SlidingWindow.mTapW w + 1));
    destruct (Z.eqb_spec (SlidingWindow.mTapW w + 1) (SlidingWindow.mSizeHop w));
    try lia; [|reflexivity].
  rewrite rotateLeft_whole by (rewrite length_insert; exact Hlen).
  reflexivity.
Qed.

Lemma feed_wf w x :
  SlidingWindow_wf w -> SlidingWindow_wf (snd (SlidingWindow.feed w x)).
Proof.
  intros Hwf. rewrite (feed_step w x Hwf).
  destruct Hwf as (Ht & Hh & Hw & Hlen). unfold SlidingWindow_wf.
  destruct (Z.eqb_spec (SlidingWindow.mTapW w + 1) (SlidingWindow.mSizeHop w));
    cbn; rewrite ?length_rotate, length_insert; repeat split; lia.
Qed.

Lemma feed_sizes w x :
  SlidingWindow.mSizeHop (snd (SlidingWindow.feed w x)) = SlidingWindow.mSizeHop w.
Proof.
  unfold SlidingWindow.feed.
  destruct (SlidingWindow.sizeHop w <=? _); reflexivity.
Qed.

(** The flag of the call number [i] (from 0) of a run. *)
Lemma feeds_flags xs : forall w (i : nat) b,
  SlidingWindow_wf w ->
  fst (SlidingWindow.feeds w xs) !! i = Some b ->
  (b = true <->
   (SlidingWindow.mTapW w + Z.of_nat i + 1) mod SlidingWindow.mSizeHop w = 0).
Proof.
  induction xs as [|x xs IH]; intros w i b Hwf Hi; [discriminate Hi|].
  cbn in Hi.
  pose proof (feed_wf w x Hwf) as Hwf'.
  pose proof (feed_sizes w x) as Hsz.
  pose proof (feed_step w x Hwf) as Hstep. cbn in Hstep.
  destruct (SlidingWindow.feed w x) as [b0 w1] eqn:Hf.
  destruct (SlidingWindow.feeds w1 xs) as [bs w2] eqn:Hfs.
  cbn in Hwf', Hsz, Hi.
  destruct Hwf as (Ht & Hh & Hw & Hlen).
  destruct i as [|i].
  - cbn in Hi. injection Hi as <-. rewrite Z.add_0_r.
    destruct (Z.eqb_spec (SlidingWindow.mTapW w + 1) (SlidingWindow.mSizeHop w))
      as [He|Hne]; injection Hstep as -> _.
    + rewrite He, Z_mod_same_full. split; reflexivity.
    + rewrite Z.mod_small by lia. split; [discriminate|lia].
  - cbn in Hi.
    specialize (IH w1 i b Hwf'). rewrite Hfs in IH. specialize (IH Hi).
    rewrite IH, Hsz.
    destruct (Z.eqb_spec (SlidingWindow.mTapW w + 1) (SlidingWindow.mSizeHop w))
      as [He|Hne]; injection Hstep as _ ->; cbn.
    + replace (SlidingWindow.mTapW w + Z.of_nat (S i) + 1)
        with (0 + Z.of_nat i + 1 + 1 * SlidingWindow.mSizeHop w) by lia.
      rewrite Z_mod_plus_full. reflexivity.
    + replace (SlidingWindow.mTapW w + Z.of_nat (S i) + 1)
        with (SlidingWindow.mTapW w + 1 + Z.of_nat i + 1) by lia.
      reflexivity.
Qed.
End Feed.

(** C2: a call of the rotating feed writes the sample at the write tap and
    advances the tap; it returns true exactly when that was the sample
    number [sizeHop()] since the last hop, and then the buffer is rotated
    left by [sizeHop()] and the tap is back at 0; otherwise it returns
    false and the buffer is only written.  Over a run, the call number
    [i] is the ready one exactly when the count of samples since the last
    hop reaches a multiple of the hop size.  A fresh window of size 4 and
    hop 4 fed 0, 1, 2, 3 is ready on the fourth call only and then holds
    [0; 1; 2; 3]; the next four samples give [4; 5; 6; 7]. *)
Theorem feed_spec :
  (forall (T : Type) (NT : Numeric T) (w : SlidingWindow.t (T := T)) (x : T),
     SlidingWindow_wf w ->
     let written :=
       <[Z.to_nat (SlidingWindow.mTapW w) := x]> (SlidingWindow.window w) in
     let r := SlidingWindow.feed w x in
     (fst r = true <-> SlidingWindow.mTapW w + 1 = SlidingWindow.sizeHop w) /\
     (fst r = true ->
        SlidingWindow.window (snd r)
        = rotate (Z.to_nat (SlidingWindow.sizeHop w)) written /\
        SlidingWindow.mTapW (snd r) = 0) /\
     (fst r = false ->
        SlidingWindow.window (snd r) = written /\
        SlidingWindow.mTapW (snd r) = SlidingWindow.mTapW w + 1) /\
     SlidingWindow_wf (snd r)) /\
  (forall (T : Type) (NT : Numeric T) (w : SlidingWindow.t (T := T))
          (xs : list T) (i : nat) (b : bool),
     SlidingWindow_wf w ->
     fst (SlidingWindow.feeds w xs) !! i = Some b ->
     (b = true <->
      (SlidingWindow.mTapW w + Z.of_nat i + 1) mod SlidingWindow.sizeHop w = 0)) /\
  (forall (tapW0 : Z) (fresh : nat -> Z),
     let w0 := SlidingWindow.create clamp fresh tapW0 4 4 in
     let r1 := SlidingWindow.feeds w0 [0; 1; 2; 3] in
     let r2 := SlidingWindow.feeds (snd r1) [4; 5; 6; 7] in
     fst r1 = [false; false; false; true] /\
     SlidingWindow.window (snd r1) = [0; 1; 2; 3] /\
     fst r2 = [false; false; false; true] /\
     SlidingWindow.window (snd r2) = [4; 5; 6; 7]).
Proof.
  split; [|split].
  - intros T NT w x Hwf written r.
    pose proof (feed_wf w x Hwf) as Hwf'.
    pose proof (feed_step w x Hwf) as Hstep. cbn in Hstep.
    unfold r, written, SlidingWindow.window, SlidingWindow.sizeHop.
    clear r written. rewrite Hstep in Hwf'. rewrite Hstep. clear Hstep.
    destruct (Z.eqb_spec (SlidingWindow.mTapW w + 1) (SlidingWindow.mSizeHop w))
      as [He|Hne]; cbn.
    + split; [|split; [|split; [|exact Hwf']]]; repeat split; intros;
        first [assumption | reflexivity | discriminate | lia].
    + split; [|split; [|split; [|exact Hwf']]]; repeat split; intros;
        first [assumption | reflexivity | discriminate | lia].
  - intros T NT w xs i b Hwf Hi. exact (feeds_flags xs w i b Hwf Hi).
  - intros tapW0 fresh. cbn. repeat split.
Qed.

Lemma feed_spec_witness :
  fst (SlidingWindow.feed (SlidingWindow.mk [0; 0; 0; 0] 4 2 1 0) 5) = true.
Proof.
  destruct feed_spec as (Hstep & _).
  apply (Hstep Z Numeric_Z (SlidingWindow.mk [0; 0; 0; 0] 4 2 1 0) 5).
  - unfold SlidingWindow_wf. cbn. lia.
  - reflexivity.
Defined.

(** ** [SlidingWindow]: the copying feed *)

Section FeedCopy.
Context {T : Type} `{Numeric T}.
Implicit Types w : SlidingWindow.t (T := T).



Lemma ring_write (buf : list T) (tap : nat) x :
  (tap < length buf)%nat ->
  let buf' := <[tap := x]> buf in
  let tap' := if (S tap =? length buf)%nat then 0%nat else S tap in
  drop tap' buf' ++ take tap' buf'
  = drop 1 (drop tap buf ++ take tap buf) ++ [x].
Proof.
  intros Hlt buf' tap'.
  destruct (lookup_lt_is_Some_2 buf tap Hlt) as [y Hy].
  assert (Hbuf' : buf' = take tap buf ++ x :: drop (S tap) buf).
  { unfold buf'. apply insert_take_drop. exact Hlt. }
  rewrite (drop_S buf y tap Hy). cbn [app drop]. rewrite drop_0.
  unfold tap'. destruct (Nat.eqb_spec (S tap) (length buf)) as [He|Hne].
  - rewrite drop_0. cbn [take]. rewrite app_nil_r, Hbuf'.
    rewrite (drop_ge buf (S tap)) by lia. reflexivity.
  - assert (Hl : buf' !! tap = Some x).
    { unfold buf'. apply list_lookup_insert_eq. exact Hlt. }
    rewrite (take_S_r buf' tap x Hl).
    unfold buf'. rewrite drop_insert_lt by lia. rewrite take_insert_ge by lia.
    rewrite app_assoc. reflexivity.
Qed.
Lemma feedCopy_step w out x :
  Ring_wf w ->
  let buf' := <[Z.to_nat (SlidingWindow.mTapW w) := x]> (SlidingWindow.mBuf w) in
  let win := SlidingWindow.mSizeWin w in
  let hop := SlidingWindow.mSizeHop w in
  let tap' := if SlidingWindow.mTapW w + 1 =? win
              then 0 else SlidingWindow.mTapW w + 1 in
  SlidingWindow.feedCopy w out x =
    if SlidingWindow.mHopCnt w + 1 =? hop
    then (true, SlidingWindow.mk buf' win hop tap' 0,
          mem.copyAllFromRing buf' win tap' out)
    else (false, SlidingWindow.mk buf' win hop tap' (SlidingWindow.mHopCnt w + 1),
          out).
Proof.
  intros (Ht & Hw & Hc & Hh & Hlen). cbn.
  unfold SlidingWindow.feedCopy, SlidingWindow.sizeHop, SlidingWindow.sizeWin.
  rewrite !wrap_small by (unfold is_u32; lia). reflexivity.
Qed.

Lemma copy_logical (buf out : list T) win tap :
  length buf = Z.to_nat win -> 0 <= tap < win ->
  (Z.to_nat win <= length out)%nat ->
  mem.copyAllFromRing buf win tap out
  = (drop (Z.to_nat tap) buf ++ take (Z.to_nat tap) buf)
      ++ drop (Z.to_nat win) out.
Proof.
  intros Hlen Ht Hout. unfold mem.copyAllFromRing.
  rewrite (take_ge buf (Z.to_nat win)) by lia.
  assert (Hl : length (drop (Z.to_nat tap) buf ++ take (Z.to_nat tap) buf)
               = Z.to_nat win).
  { rewrite length_app, length_drop, length_take. lia. }
  rewrite Hl. rewrite take_ge by lia. reflexivity.
Qed.

Lemma length_logical w :
  Ring_wf w -> length (logical w) = Z.to_nat (SlidingWindow.mSizeWin w).
Proof.
  intros (Ht & Hw & Hc & Hh & Hlen). unfold logical.
  rewrite length_app, length_drop, length_take. lia.
Qed.

(** One call: the ring is written in place, the logical window loses its
    oldest sample and gains the new one, and the hop counter advances
    modulo the hop size. *)
Lemma feedCopy_ring w out x :
  Ring_wf w ->
  (Z.to_nat (SlidingWindow.mSizeWin w) <= length out)%nat ->
  let w' := snd (fst (SlidingWindow.feedCopy w out x)) in
  Ring_wf w' /\
  logical w' = drop 1 (logical w) ++ [x] /\
  SlidingWindow.mSizeWin w' = SlidingWindow.mSizeWin w /\
  SlidingWindow.mSizeHop w' = SlidingWindow.mSizeHop w /\
  SlidingWindow.mHopCnt w'
  = (SlidingWindow.mHopCnt w + 1) mod SlidingWindow.mSizeHop w /\
  length (snd (SlidingWindow.feedCopy w out x)) = length out.
Proof.
  intros Hwf Hout. rewrite (feedCopy_step w out x Hwf).
  destruct Hwf as (Ht & Hw & Hc & Hh & Hlen). cbn zeta.
  set (tap' := if SlidingWindow.mTapW w + 1 =? SlidingWindow.mSizeWin w
               then 0 else SlidingWindow.mTapW w + 1).
  assert (Htap' : 0 <= tap' < SlidingWindow.mSizeWin w).
  { unfold tap'. destruct (Z.eqb_spec (SlidingWindow.mTapW w + 1)
                             (SlidingWindow.mSizeWin w)); lia. }
  assert (Hlog : drop (Z.to_nat tap')
                   (<[Z.to_nat (SlidingWindow.mTapW w) := x]> (SlidingWindow.mBuf w))
                 ++ take (Z.to_nat tap')
                   (<[Z.to_nat (SlidingWindow.mTapW w) := x]> (SlidingWindow.mBuf w))
                 = drop 1 (logical w) ++ [x]).
  { unfold logical.
    rewrite <- (ring_write (SlidingWindow.mBuf w)
                  (Z.to_nat (SlidingWindow.mTapW w)) x) by lia.
    cbn zeta.
    replace (Z.to_nat tap')
      with (if (S (Z.to_nat (SlidingWindow.mTapW w))
                =? length (SlidingWindow.mBuf w))%nat
            then 0%nat else S (Z.to_nat (SlidingWindow.mTapW w))); [reflexivity|].
    unfold tap'.
    destruct (Nat.eqb_spec (S (Z.to_nat (SlidingWindow.mTapW w)))
                (length (SlidingWindow.mBuf w)));
      destruct (Z.eqb_spec (SlidingWindow.mTapW w + 1) (SlidingWindow.mSizeWin w));
      lia. }
  destruct (Z.eqb_spec (SlidingWindow.mHopCnt w + 1) (SlidingWindow.mSizeHop w))
    as [He|Hne]; cbn [fst snd]; unfold Ring_wf, logical at 1;
    cbn [SlidingWindow.mBuf SlidingWindow.mTapW SlidingWindow.mSizeWin
         SlidingWindow.mSizeHop SlidingWindow.mHopCnt];
    rewrite length_insert.
  - rewrite He, Z_mod_same_full.
    rewrite copy_logical by (rewrite ?length_insert; lia).
    rewrite Hlog. repeat split; try lia.
    rewrite !length_app, length_drop, length_logical
      by (unfold Ring_wf; repeat split; lia).
    rewrite length_drop. cbn. lia.
  - rewrite Z.mod_small by lia. rewrite Hlog. repeat split; lia.
Qed.

(** A run of calls: the logical window is the tail of the stream. *)
Lemma feedCopies_ring xs : forall w out bs w1 o1,
  Ring_wf w ->
  (Z.to_nat (SlidingWindow.mSizeWin w) <= length out)%nat ->
  SlidingWindow.feedCopies w out xs = (bs, w1, o1) ->
  Ring_wf w1 /\
  logical w1 = drop (length xs) (logical w ++ xs) /\
  SlidingWindow.mSizeWin w1 = SlidingWindow.mSizeWin w /\
  SlidingWindow.mSizeHop w1 = SlidingWindow.mSizeHop w /\
  SlidingWindow.mHopCnt w1
  = (SlidingWindow.mHopCnt w + Z.of_nat (length xs))
      mod SlidingWindow.mSizeHop w /\
  length o1 = length out.
Proof.
  induction xs as [|x xs IH]; intros w out bs w1 o1 Hwf Hout Hrun.
  - cbn in Hrun. injection Hrun as <- <- <-.
    rewrite app_nil_r, drop_0. cbn [length Z.of_nat]. rewrite Z.add_0_r.
    destruct Hwf as (Ht & Hw & Hc & Hh & Hlen) eqn:E. clear E.
    rewrite Z.mod_small by lia.
    repeat split; lia.
  - cbn in Hrun.
    pose proof (feedCopy_ring w out x Hwf Hout) as Hstep. cbn zeta in Hstep.
    pose proof (length_logical w Hwf) as Hll.
    destruct (SlidingWindow.feedCopy w out x) as [[b w'] o'].
    cbn [fst snd] in Hstep.
    destruct Hstep as (Hwf' & Hlog & Hsw & Hsh & Hcnt & Hlo).
    destruct (SlidingWindow.feedCopies w' o' xs) as [[bs' w2] o2] eqn:Hrest.
    injection Hrun as <- <- <-.
    destruct (IH w' o' bs' w2 o2 Hwf' ltac:(lia) Hrest)
      as (Hwf2 & Hlog2 & Hsw2 & Hsh2 & Hcnt2 & Hlo2).
    destruct Hwf as (Ht & Hw & Hc & Hh & Hlen).
    split; [exact Hwf2|]. split.
    { rewrite Hlog2, Hlog. rewrite <- app_assoc. cbn [app length].
      replace (S (length xs)) with (1 + length xs)%nat by lia.
      rewrite <- drop_drop. rewrite (drop_app_le (logical w)) by lia.
      reflexivity. }
    split; [congruence|]. split; [congruence|]. split; [|congruence].
    rewrite Hcnt2, Hsh, Hcnt. rewrite Z.add_mod_idemp_l by lia.
    f_equal. cbn [length]. lia.
Qed.

(** C3: a call of the copying feed writes the sample at the write tap of
    the ring and advances the tap modulo the window size, moving no other
    slot.  It returns true exactly when the hop counter reaches the hop
    size, which over a run is exactly when the number of samples fed since
    the last hop boundary is a multiple of the hop size; then the first
    [sizeWin()] slots of the destination are the [sizeWin()] most recent
    samples of the stream, oldest first, and the hop counter is back at 0.
    On every other call the destination is as it was. *)
Theorem feedCopy_spec w out xs x bs w1 o1 b w2 o2 :
  Ring_wf w ->
  (Z.to_nat (SlidingWindow.sizeWin w) <= length out)%nat ->
  SlidingWindow.feedCopies w out xs = (bs, w1, o1) ->
  SlidingWindow.feedCopy w1 o1 x = (b, w2, o2) ->
  let win := Z.to_nat (SlidingWindow.sizeWin w) in
  SlidingWindow.mBuf w2
    = <[Z.to_nat (SlidingWindow.mTapW w1) := x]> (SlidingWindow.mBuf w1) /\
  SlidingWindow.mTapW w2
    = (SlidingWindow.mTapW w1 + 1) mod SlidingWindow.sizeWin w /\
  (b = true <-> SlidingWindow.mHopCnt w1 + 1 = SlidingWindow.sizeHop w) /\
  (b = true <->
   (SlidingWindow.mHopCnt w + Z.of_nat (length xs) + 1)
     mod SlidingWindow.sizeHop w = 0) /\
  (b = true ->
     take win o2 = drop (S (length xs)) (logical w ++ xs ++ [x]) /\
     length (take win o2) = win /\
     drop win o2 = drop win o1 /\
     SlidingWindow.mHopCnt w2 = 0) /\
  (b = false ->
     o2 = o1 /\ SlidingWindow.mHopCnt w2 = SlidingWindow.mHopCnt w1 + 1).
Proof.
  intros Hwf Hout Hrun Hcall win.
  unfold SlidingWindow.sizeWin, SlidingWindow.sizeHop in *.
  destruct (feedCopies_ring xs w out bs w1 o1 Hwf Hout Hrun)
    as (Hwf1 & Hlog1 & Hsw & Hsh & Hcnt & Hlo).
  pose proof (feedCopy_ring w1 o1 x Hwf1 ltac:(lia)) as Hring.
  cbn zeta in Hring. rewrite Hcall in Hring. cbn [fst snd] in Hring.
  destruct Hring as (Hwf2 & Hlog2 & Hsw2 & _ & _ & Hlo2).
  pose proof (length_logical w2 Hwf2) as Hll2.
  pose proof (length_logical w Hwf) as Hll.
  pose proof (feedCopy_step w1 o1 x Hwf1) as Hstep. cbn zeta in Hstep.
  rewrite Hcall in Hstep.
  destruct Hwf as (Ht & Hw & Hc & Hh & Hlen).
  destruct Hwf1 as (Ht1 & Hw1 & Hc1 & Hh1 & Hlen1).
  assert (Hmod : (SlidingWindow.mHopCnt w + Z.of_nat (length xs) + 1)
                   mod SlidingWindow.mSizeHop w
                 = (SlidingWindow.mHopCnt w1 + 1) mod SlidingWindow.mSizeHop w).
  { rewrite Hcnt, Z.add_mod_idemp_l by lia. reflexivity. }
  rewrite Hmod. clear Hmod.
  remember (if SlidingWindow.mTapW w1 + 1 =? SlidingWindow.mSizeWin w1
            then 0 else SlidingWindow.mTapW w1 + 1) as tap' eqn:Etap.
  assert (Htap : tap' = (SlidingWindow.mTapW w1 + 1) mod SlidingWindow.mSizeWin w).
  { rewrite Etap, Hsw.
    destruct (Z.eqb_spec (SlidingWindow.mTapW w1 + 1) (SlidingWindow.mSizeWin w))
      as [He|Hne].
    - rewrite He, Z_mod_same_full. reflexivity.
    - rewrite Z.mod_small by lia. reflexivity. }
  assert (Hb : 0 <= tap' < SlidingWindow.mSizeWin w).
  { rewrite Htap. apply Z.mod_pos_bound. lia. }
  destruct (Z.eqb_spec (SlidingWindow.mHopCnt w1 + 1) (SlidingWindow.mSizeHop w1))
    as [He|Hne]; injection Hstep as Eb Ew2 Eo2.
  - assert (Hlw2 : drop (Z.to_nat tap')
                     (<[Z.to_nat (SlidingWindow.mTapW w1) := x]> (SlidingWindow.mBuf w1))
                   ++ take (Z.to_nat tap')
                     (<[Z.to_nat (SlidingWindow.mTapW w1) := x]> (SlidingWindow.mBuf w1))
                   = logical w2).
    { rewrite Ew2. reflexivity. }
    rewrite copy_logical in Eo2 by (rewrite ?length_insert; lia).
    rewrite Hlw2, Hlog2, Hlog1 in Eo2.
    rewrite Hlog2, Hsw2, Hsw in Hll2. fold win in Hll2.
    rewrite Hlog1 in Hll2.
    rewrite Ew2, Eb. cbn [SlidingWindow.mBuf SlidingWindow.mTapW SlidingWindow.mHopCnt].
    rewrite <- Hsh, He, Z_mod_same_full.
    split; [reflexivity|]. split; [exact Htap|].
    split; [tauto|]. split; [tauto|]. split; [|discriminate].
    intros _. rewrite Eo2, Hsw. fold win.
    set (A := drop 1 (drop (length xs) (logical w ++ xs)) ++ [x]) in *.
    rewrite (take_app_length' A) by (symmetry; exact Hll2).
    rewrite (drop_app_length' A) by (symmetry; exact Hll2).
    split; [|split; [exact Hll2|split; reflexivity]].
    unfold A. clear A Eo2 Hll2.
    replace (S (length xs)) with (length xs + 1)%nat by lia.
    rewrite <- drop_drop.
    rewrite app_assoc.
    rewrite (drop_app_le (logical w ++ xs)) by (rewrite length_app; lia).
    rewrite (drop_app_le (drop (length xs) (logical w ++ xs))); [reflexivity|].
    rewrite length_drop, length_app, Hll. lia.
  - rewrite Ew2, Eb, Eo2.
    cbn [SlidingWindow.mBuf SlidingWindow.mTapW SlidingWindow.mHopCnt].
    rewrite <- Hsh.
    rewrite (Z.mod_small (SlidingWindow.mHopCnt w1 + 1)) by lia.
    split; [reflexivity|]. split; [exact Htap|].
    split; [split; [discriminate|lia]|].
    split; [split; [discriminate|lia]|].
    split; [discriminate|]. intros _. split; reflexivity.
Qed.
End FeedCopy.

Lemma feedCopy_spec_witness :
  let w := SlidingWindow.create clamp (fun _ => 9) 0 4 2 in
  let r := SlidingWindow.feedCopies w [0; 0; 0; 0] [1; 2; 3] in
  let c := SlidingWindow.feedCopy (snd (fst r)) (snd r) 4 in
  take 4 (snd c) = [1; 2; 3; 4].
Proof.
  intros w r c.
  assert (Hwf : Ring_wf w).
  { unfold Ring_wf. repeat split; cbn; lia. }
  assert (Hout : (Z.to_nat (SlidingWindow.sizeWin w) <= length [0; 0; 0; 0])%nat)
    by (cbn; lia).
  destruct (feedCopy_spec w [0; 0; 0; 0] [1; 2; 3] 4
              (fst (fst r)) (snd (fst r)) (snd r)
              (fst (fst c)) (snd (fst c)) (snd c) Hwf Hout
              eq_refl eq_refl) as (_ & _ & _ & _ & Hready & _).
  destruct (Hready eq_refl) as (Htake & _). exact Htake.
Defined.

(** ** [DelayN]: the sample from a line length ago *)

Section Delay.
Context {T : Type} `{Numeric T}.
Implicit Types (d : DelayN.t (T := T)) (hist : list T).



Lemma delay_resize_tracks d n :
  0 < n -> Delay_tracks (DelayN.resize_assign d n zero) n [].
Proof.
  intros Hn. unfold Delay_tracks, DelayN.resize_assign. cbn.
  rewrite length_replicate, !app_nil_r. split; [reflexivity|].
  split; [lia|reflexivity].
Qed.

Lemma delay_feed_tracks d n hist x :
  Delay_tracks d n hist ->
  fst (DelayN.feed d x) = delayed (Z.to_nat n) hist /\
  Delay_tracks (snd (DelayN.feed d x)) n (hist ++ [x]).
Proof.
  intros (Hlen & Hpos & Hlog). unfold DelayN.feed, DelayN.size. cbn [fst snd].
  set (P := replicate (Z.to_nat n) zero ++ hist) in *.
  assert (HP : length P = (Z.to_nat n + length hist)%nat).
  { unfold P. rewrite length_app, length_replicate. reflexivity. }
  split.
  - unfold delayed. fold P. rewrite !nth_lookup. f_equal.
    assert (Hh : (drop (Z.to_nat (DelayN.pos d)) (DelayN.buf d)
                    ++ take (Z.to_nat (DelayN.pos d)) (DelayN.buf d)) !! 0%nat
                 = DelayN.buf d !! Z.to_nat (DelayN.pos d)).
    { rewrite lookup_app_l by (rewrite length_drop; lia).
      rewrite lookup_drop. f_equal. lia. }
    rewrite <- Hh, Hlog, lookup_drop. f_equal. lia.
  - unfold Delay_tracks. cbn [DelayN.buf DelayN.pos].
    rewrite length_insert. split; [exact Hlen|]. split.
    { destruct (Z.leb_spec (Z.of_nat (length (DelayN.buf d))) (DelayN.pos d + 1));
        lia. }
    pose proof (ring_write (DelayN.buf d) (Z.to_nat (DelayN.pos d)) x
                  ltac:(lia)) as Hring.
    cbn zeta in Hring.
    replace (Z.to_nat (if Z.of_nat (length (DelayN.buf d)) <=? DelayN.pos d + 1
                       then 0 else DelayN.pos d + 1))
      with (if (S (Z.to_nat (DelayN.pos d)) =? length (DelayN.buf d))%nat
            then 0%nat else S (Z.to_nat (DelayN.pos d))).
    2:{ destruct (Nat.eqb_spec (S (Z.to_nat (DelayN.pos d)))
                    (length (DelayN.buf d)));
        destruct (Z.leb_spec (Z.of_nat (length (DelayN.buf d)))
                    (DelayN.pos d + 1)); lia. }
    rewrite Hring, Hlog.
    rewrite length_app. cbn [length].
    replace (replicate (Z.to_nat n) zero ++ hist ++ [x]) with (P ++ [x])
      by (unfold P; rewrite <- app_assoc; reflexivity).
    rewrite drop_drop.
    rewrite (drop_app_le P) by lia. reflexivity.
Qed.
End Delay.

(** ** [SlidingDFT::forward] *)

Section Forward.
Context {T D : Type} `{Numeric T} `{Numeric D} `{ComplexArith T D}.
Variable fresh : nat -> T.
Implicit Types s : SlidingDFT.t (T := T).


Lemma rotator_shift (F1 FL : Complex T) n :
  SlidingDFT.rotator F1 (cmul FL F1) n = SlidingDFT.rotator F1 FL (S n).
Proof.
  induction n as [|n IH]; [reflexivity|].
  cbn [SlidingDFT.rotator] in *. rewrite IH. reflexivity.
Qed.

(** With the accessor [bin], the loop runs through, updates the [n] bins
    from [k] on, each with its own phasor, and no other bin. *)
Lemma resonate_bin F1 dif n : forall k c (buf : list T),
  exists buf',
    SlidingDFT.resonate SlidingDFT.acc_bin F1 dif n k c buf = Some buf' /\
    length buf' = length buf /\
    (0 <= k ->
     (Z.to_nat (2 * (k + Z.of_nat n)) <= length buf)%nat ->
     forall j, 0 <= j ->
       DFTBase.get_bin buf' j
       = if (k <=? j) && (j <? k + Z.of_nat n)
         then cadd_real (cmul (DFTBase.get_bin buf j)
                              (SlidingDFT.rotator F1 c (Z.to_nat (j - k)))) dif
         else DFTBase.get_bin buf j).
Proof.
  induction n as [|n IH]; intros k c buf.
  - exists buf. split; [reflexivity|]. split; [reflexivity|].
    intros Hk Hlen j Hj.
    destruct (Z.leb_spec k j), (Z.ltb_spec j (k + Z.of_nat 0));
      cbn [andb]; try reflexivity; lia.
  - cbn [SlidingDFT.resonate SlidingDFT.bin_ref SlidingDFT.viable
         SlidingDFT.params Nat.eqb].
    destruct (IH (k + 1) (cmul c F1)
                (DFTBase.set_bin buf k
                   (cadd_real (cmul (DFTBase.get_bin buf k) c) dif)))
      as (buf' & Hrun & Hlen' & Hbins).
    exists buf'. split; [exact Hrun|].
    rewrite length_set_bin in Hlen'. split; [exact Hlen'|].
    intros Hk Hlen j Hj.
    rewrite Hbins by (rewrite ?length_set_bin; lia).
    destruct (Z.eq_dec j k) as [->|Hne].
    + destruct (Z.leb_spec (k + 1) k); [lia|]. cbn [andb].
      destruct (Z.leb_spec k k); [|lia].
      destruct (Z.ltb_spec k (k + Z.of_nat (S n))); [|lia]. cbn [andb].
      rewrite get_set_bin_same by lia.
      replace (Z.to_nat (k - k)) with 0%nat by lia. reflexivity.
    + rewrite get_set_bin_other by lia.
      destruct (Z.leb_spec (k + 1) j), (Z.ltb_spec j (k + 1 + Z.of_nat n)),
        (Z.leb_spec k j), (Z.ltb_spec j (k + Z.of_nat (S n)));
        cbn [andb]; try reflexivity; try lia.
      rewrite rotator_shift. do 3 f_equal. lia.
Qed.

Lemma phasor_lo size binLo :
  phasor size binLo binLo
  = fromPhase (mul (SlidingDFT.theta size) (of_u32 binLo)).
Proof. unfold phasor. rewrite Z.sub_diag. reflexivity. Qed.

Lemma phasor_succ size binLo k :
  binLo <= k ->
  phasor size binLo (k + 1)
  = cmul (phasor size binLo k) (fromPhase (SlidingDFT.theta size)).
Proof.
  intros Hk. unfold phasor.
  replace (Z.to_nat (k + 1 - binLo)) with (S (Z.to_nat (k - binLo))) by lia.
  reflexivity.
Qed.

Lemma create_wf c0 n0 size binLo binHi :
  0 < size -> size + 2 < 2 ^ 32 -> 0 <= binLo ->
  binHi <= Z.shiftr (size + 2) 1 ->
  SlidingDFT_wf (SlidingDFT.create fresh c0 n0 size binLo binHi) /\
  Delay_tracks
    (SlidingDFT.mDelay (SlidingDFT.create fresh c0 n0 size binLo binHi))
    size [].
Proof.
  intros Hs Hs2 Hlo Hhi.
  unfold SlidingDFT.create, SlidingDFT.resize.
  cbn [SlidingDFT.base DFTBase.mBuf DFTBase.mSizeDFT].
  pose proof (length_mem_resize fresh ([] : list T) (wrap (0 + 2))
                (wrap (size + 2))) as Hlen.
  destruct (mem.resize fresh [] (wrap (0 + 2)) (wrap (size + 2))) as [ok b1]
    eqn:Hres.
  assert (Hb1 : length b1 = Z.to_nat (wrap (size + 2))).
  { revert Hres. unfold mem.resize.
    rewrite !wrap_small by (unfold is_u32; lia).
    destruct (Z.eqb_spec (0 + 2) (size + 2)) as [He|Hne]; [lia|].
    intros Hres. injection Hres as _ <-.
    rewrite take_nil, app_nil_l, length_fmap, length_seq. cbn [length]. lia. }
  clear Hlen Hres.
  rewrite deepZero_all by exact Hb1.
  rewrite wrap_small by (unfold is_u32; lia).
  split.
  - unfold SlidingDFT_wf, DFTBase_wf, SlidingDFT.interval, SlidingDFT.sizeDFT,
      DFTBase.numBins, DFTBase.sizeDFT.
    cbn [SlidingDFT.base SlidingDFT.mBinLo SlidingDFT.mBinHi SlidingDFT.mF1
         SlidingDFT.mFL SlidingDFT.mNorm DFTBase.mBuf DFTBase.mSizeDFT].
    rewrite length_replicate.
    rewrite wrap_small by (unfold is_u32; lia).
    repeat split; try lia.
  - cbn [SlidingDFT.interval SlidingDFT.mDelay].
    apply delay_resize_tracks. exact Hs.
Qed.

(** With [bin(k)] in the place of [bins(k)], [forward] is the update the
    loop is written for: it computes [difference = (input - d) * (2 / N)],
    where [d] is what the delay line gives back, the sample fed [N] calls
    earlier; it replaces every bin [k] of [[binLo, binHi)] by
    [bin[k] * c_k + difference], where [c_binLo] is the phasor of phase
    [(2 pi / N) * binLo] and [c_(k+1)] is [c_k] times the phasor of phase
    [2 pi / N]; every other bin is left as it was. *)
Lemma forward_bin_update s hist input :
  SlidingDFT_wf s ->
  Delay_tracks (SlidingDFT.mDelay s) (SlidingDFT.sizeDFT s) hist ->
  let N := SlidingDFT.sizeDFT s in
  let binLo := SlidingDFT.mBinLo s in
  let binHi := SlidingDFT.mBinHi s in
  let d := delayed (Z.to_nat N) hist in
  let difference := mul (sub input d) (div (of_u32 2) (of_u32 N)) in
  let c := phasor N binLo in
  exists s',
    SlidingDFT.forward_with SlidingDFT.acc_bin s input = Some s' /\
    (forall k, binLo <= k < binHi ->
       SlidingDFT.bin s' k
       = cadd_real (cmul (SlidingDFT.bin s k) (c k)) difference) /\
    (forall k, 0 <= k -> ~ (binLo <= k < binHi) ->
       SlidingDFT.bin s' k = SlidingDFT.bin s k) /\
    c binLo = fromPhase (mul (div M_2PI (of_u32 N)) (of_u32 binLo)) /\
    (forall k, binLo <= k ->
       c (k + 1) = cmul (c k) (fromPhase (div M_2PI (of_u32 N)))) /\
    SlidingDFT_wf s' /\
    Delay_tracks (SlidingDFT.mDelay s') N (hist ++ [input]).
Proof.
  intros Hwf Htr N binLo binHi d difference c.
  destruct (delay_feed_tracks _ _ _ input Htr) as [Hdly Htr'].
  destruct Hwf as (Hbase & Hlo & Hhi & HF1 & HFL & Hnorm).
  pose proof (numBins_range _ Hbase) as [Hnb1 Hnb2].
  destruct Hbase as (Hsz0 & Hsz1 & Hlen).
  unfold SlidingDFT.forward_with.
  cbn [SlidingDFT.viable SlidingDFT.params Nat.eqb].
  destruct (DelayN.feed (SlidingDFT.mDelay s) input) as [dly dl].
  cbn [fst snd] in Hdly, Htr'. rewrite Hdly, Hnorm.
  fold N binLo binHi d difference.
  destruct (resonate_bin (SlidingDFT.mF1 s) difference
              (Z.to_nat (binHi - binLo)) binLo (SlidingDFT.mFL s)
              (DFTBase.mBuf (SlidingDFT.base s)))
    as (buf' & Hrun & Hlen' & Hbins).
  rewrite Hrun. eexists. split; [reflexivity|].
  assert (Hbin : forall k, 0 <= k ->
            DFTBase.get_bin buf' k
            = if (binLo <=? k) && (k <? binHi)
              then cadd_real (cmul (SlidingDFT.bin s k) (c k)) difference
              else SlidingDFT.bin s k).
  { intros k Hk. unfold SlidingDFT.bin, DFTBase.bin.
    destruct (Z.lt_ge_cases binLo binHi) as [Hlt|Hge].
    - rewrite Hbins by (fold binLo binHi in Hhi;
        unfold DFTBase.sizeDFT in *; lia).
      replace (binLo + Z.of_nat (Z.to_nat (binHi - binLo))) with binHi by lia.
      rewrite HF1, HFL. reflexivity.
    - revert Hrun. replace (Z.to_nat (binHi - binLo)) with 0%nat by lia.
      cbn [SlidingDFT.resonate]. intros Hrun. injection Hrun as <-.
      destruct (Z.leb_spec binLo k), (Z.ltb_spec k binHi); cbn [andb];
        try reflexivity; lia. }
  unfold SlidingDFT.bin at 1 3, DFTBase.bin.
  cbn [SlidingDFT.base DFTBase.mBuf SlidingDFT.mDelay].
  split.
  { intros k Hk. rewrite Hbin by (unfold binLo in *; lia).
    destruct (Z.leb_spec binLo k), (Z.ltb_spec k binHi); cbn [andb];
      try reflexivity; lia. }
  split.
  { intros k Hk Hout. rewrite Hbin by exact Hk.
    destruct (Z.leb_spec binLo k), (Z.ltb_spec k binHi); cbn [andb];
      try reflexivity; lia. }
  split; [apply phasor_lo|]. split; [apply phasor_succ|].
  split; [|exact Htr'].
  unfold SlidingDFT_wf, DFTBase_wf, SlidingDFT.sizeDFT,
    DFTBase.numBins, DFTBase.sizeDFT in *.
  cbn [SlidingDFT.base SlidingDFT.mBinLo SlidingDFT.mBinHi SlidingDFT.mF1
       SlidingDFT.mFL SlidingDFT.mNorm DFTBase.mBuf DFTBase.mSizeDFT].
  rewrite Hlen'. repeat split; assumption.
Qed.

(** C1: as written, [forward] cannot be instantiated for any sample
    type: its loop calls [this->bins(k)], and the only [bins] that
    [DFTBase] declares takes no argument.  There is then no call of
    [forward], for any state and any sample, that computes the
    difference and updates the bins of the interval; the accessor that
    takes the index is [bin]. *)
Theorem forward_ill_formed s input :
  SlidingDFT.viable SlidingDFT.acc_bins 1 = false /\
  SlidingDFT.viable SlidingDFT.acc_bin 1 = true /\
  SlidingDFT.forward s input = None.
Proof. repeat split. Qed.
End Forward.

(** ** The constructor establishes the window invariants *)

Section Construction.
Context {T : Type} `{Numeric T}.
Variable clip : Z -> Z -> Z -> Z.
Hypothesis clip_ok : clip_contract clip.
Variable fresh : nat -> T.

Lemma create_window_wf tapW0 winSize hopSize :
  1 <= winSize < 2 ^ 32 ->
  let w := SlidingWindow.create clip fresh tapW0 winSize hopSize in
  SlidingWindow_wf w /\ Ring_wf w /\
  SlidingWindow.sizeWin w = winSize /\
  1 <= SlidingWindow.sizeHop w <= winSize.
Proof.
  intros Hwin w.
  assert (Hw : w = SlidingWindow.mk (replicate (Z.to_nat winSize) zero)
                     winSize (clip hopSize winSize 1) 0 0).
  { unfold w, SlidingWindow.create, SlidingWindow.resize,
      SlidingWindow.set_sizeHop, SlidingWindow.set_sizeWin,
      SlidingWindow.sizeWin, mem.resize.
    cbn [SlidingWindow.mBuf SlidingWindow.mSizeWin].
    destruct (Z.eqb_spec 0 winSize) as [He|Hne]; [lia|].
    cbn [SlidingWindow.mBuf SlidingWindow.mSizeWin SlidingWindow.mSizeHop
         SlidingWindow.mTapW SlidingWindow.mHopCnt].
    rewrite take_nil, app_nil_l, Nat.sub_0_r.
    rewrite deepZero_all by (rewrite length_fmap, length_seq; reflexivity).
    reflexivity. }
  destruct (clip_ok hopSize winSize 1 ltac:(lia)) as (Hlo & Hhi & Hin).
  assert (Hhop : 1 <= clip hopSize winSize 1 <= winSize).
  { destruct (Z.lt_ge_cases hopSize 1) as [Hlt|Hge].
    - rewrite Hlo by exact Hlt. lia.
    - destruct (Z.lt_ge_cases winSize hopSize) as [Hgt|Hle].
      + rewrite Hhi by exact Hgt. lia.
      + rewrite Hin by lia. lia. }
  rewrite Hw. unfold SlidingWindow_wf, Ring_wf, SlidingWindow.sizeWin,
    SlidingWindow.sizeHop.
  cbn [SlidingWindow.mBuf SlidingWindow.mSizeWin SlidingWindow.mSizeHop
       SlidingWindow.mTapW SlidingWindow.mHopCnt].
  rewrite length_replicate. repeat split; lia.
Qed.
End Construction.

(** * Further properties *)

(** ** [SlidingWindow]: both feeds slide one sample at a time *)

Section Sliding.
Context {T : Type} `{Numeric T}.
Implicit Types w : SlidingWindow.t (T := T).

(** Under the rotating feed, too, the buffer read from the write tap
    around is the window oldest sample first: the slots before the tap
    hold the samples of the current hop, the slots from the tap on the
    older ones. *)
Lemma feed_logical w x :
  SlidingWindow_wf w ->
  logical (snd (SlidingWindow.feed w x)) = drop 1 (logical w) ++ [x].
Proof.
  intros Hwf. rewrite (feed_step w x Hwf).
  destruct Hwf as (Ht & Hh & Hw & Hlen).
  pose proof (ring_write (SlidingWindow.mBuf w)
                (Z.to_nat (SlidingWindow.mTapW w)) x ltac:(lia)) as Hring.
  cbn zeta in Hring. unfold logical at 2. rewrite <- Hring. clear Hring.
  destruct (Z.eqb_spec (SlidingWindow.mTapW w + 1) (SlidingWindow.mSizeHop w))
    as [He|Hne]; cbn [snd]; unfold logical;
    cbn [SlidingWindow.mBuf SlidingWindow.mTapW].
  - rewrite drop_0. cbn [take]. rewrite app_nil_r. unfold rotate.
    rewrite length_insert.
    destruct (Nat.eqb_spec (S (Z.to_nat (SlidingWindow.mTapW w)))
                (length (SlidingWindow.mBuf w))) as [Hfull|Hpart].
    + replace (Z.to_nat (SlidingWindow.mSizeHop w))
        with (length (SlidingWindow.mBuf w)) by lia.
      rewrite Nat.Div0.mod_same. rewrite drop_0. cbn [take].
      rewrite app_nil_r. reflexivity.
    + rewrite Nat.mod_small by lia.
      replace (Z.to_nat (SlidingWindow.mSizeHop w))
        with (S (Z.to_nat (SlidingWindow.mTapW w))) by lia.
      reflexivity.
  - destruct (Nat.eqb_spec (S (Z.to_nat (SlidingWindow.mTapW w)))
                (length (SlidingWindow.mBuf w))) as [Hfull|Hpart]; [lia|].
    replace (Z.to_nat (SlidingWindow.mTapW w + 1))
      with (S (Z.to_nat (SlidingWindow.mTapW w))) by lia.
    reflexivity.
Qed.

(** The windows a caller reads from the rotating feed at its ready calls
    are those of the reference sliding window over the same stream,
    started from the buffer read oldest first and from the write tap as
    hop count. *)
Lemma feed_windows_slide xs : forall w,
  SlidingWindow_wf w ->
  feed_windows w xs
  = hop_windows (SlidingWindow.sizeHop w) (SlidingWindow.mTapW w)
      (logical w) xs.
Proof.
  induction xs as [|x xs IH]; intros w Hwf; [reflexivity|].
  cbn [feed_windows hop_windows].
  pose proof (feed_logical w x Hwf) as Hlog.
  pose proof (feed_wf w x Hwf) as Hwf'.
  pose proof (feed_step w x Hwf) as Hstep. cbn zeta in Hstep.
  unfold SlidingWindow.sizeHop in *.
  destruct (SlidingWindow.feed w x) as [b w1]. cbn [snd] in Hlog, Hwf'.
  rewrite <- Hlog. rewrite (IH w1 Hwf').
  destruct (Z.eqb_spec (SlidingWindow.mTapW w + 1) (SlidingWindow.mSizeHop w))
    as [He|Hne]; injection Hstep as -> Hw1.
  - assert (Hwin : SlidingWindow.window w1 = logical w1).
    { rewrite Hw1. unfold logical, SlidingWindow.window.
      cbn [SlidingWindow.mBuf SlidingWindow.mTapW].
      rewrite drop_0. cbn [take]. rewrite app_nil_r. reflexivity. }
    rewrite Hwin. rewrite Hw1 at 2 3.
    cbn [SlidingWindow.mSizeHop SlidingWindow.mTapW]. reflexivity.
  - rewrite Hw1 at 1 2.
    cbn [SlidingWindow.mSizeHop SlidingWindow.mTapW]. reflexivity.
Qed.

(** One call of the copying feed, seen through the logical window. *)
Lemma feedCopy_view w dst x :
  Ring_wf w ->
  (Z.to_nat (SlidingWindow.mSizeWin w) <= length dst)%nat ->
  exists w',
    SlidingWindow.feedCopy w dst x
    = (SlidingWindow.mHopCnt w + 1 =? SlidingWindow.mSizeHop w, w',
       if SlidingWindow.mHopCnt w + 1 =? SlidingWindow.mSizeHop w
       then logical w' ++ drop (Z.to_nat (SlidingWindow.mSizeWin w)) dst
       else dst) /\
    Ring_wf w' /\
    logical w' = drop 1 (logical w) ++ [x] /\
    SlidingWindow.mSizeWin w' = SlidingWindow.mSizeWin w /\
    SlidingWindow.mSizeHop w' = SlidingWindow.mSizeHop w /\
    SlidingWindow.mHopCnt w'
    = (if SlidingWindow.mHopCnt w + 1 =? SlidingWindow.mSizeHop w
       then 0 else SlidingWindow.mHopCnt w + 1).
Proof.
  intros Hwf Hdst.
  pose proof (feedCopy_ring w dst x Hwf Hdst) as Hring. cbn zeta in Hring.
  pose proof (feedCopy_step w dst x Hwf) as Hstep. cbn zeta in Hstep.
  destruct Hwf as (Ht & Hw & Hc & Hh & Hlen).
  destruct (SlidingWindow.feedCopy w dst x) as [[b w'] d'].
  cbn [fst snd] in Hring.
  destruct Hring as (Hwf' & Hlog & Hsw & Hsh & _ & _).
  exists w'.
  assert (Hb : 0 <= (if SlidingWindow.mTapW w + 1 =? SlidingWindow.mSizeWin w
                     then 0 else SlidingWindow.mTapW w + 1)
               < SlidingWindow.mSizeWin w).
  { destruct (Z.eqb_spec (SlidingWindow.mTapW w + 1) (SlidingWindow.mSizeWin w));
      lia. }
  destruct (Z.eqb_spec (SlidingWindow.mHopCnt w + 1) (SlidingWindow.mSizeHop w))
    as [He|Hne]; injection Hstep as -> Hw' Hd'.
  - rewrite copy_logical in Hd' by (rewrite ?length_insert; lia).
    assert (Hl : logical w'
                 = drop (Z.to_nat (if SlidingWindow.mTapW w + 1
                                      =? SlidingWindow.mSizeWin w
                                   then 0 else SlidingWindow.mTapW w + 1))
                     (<[Z.to_nat (SlidingWindow.mTapW w) := x]>
                        (SlidingWindow.mBuf w))
                   ++ take (Z.to_nat (if SlidingWindow.mTapW w + 1
                                         =? SlidingWindow.mSizeWin w
                                      then 0 else SlidingWindow.mTapW w + 1))
                     (<[Z.to_nat (SlidingWindow.mTapW w) := x]>
                        (SlidingWindow.mBuf w))).
    { rewrite Hw'. reflexivity. }
    rewrite <- Hl in Hd'. rewrite Hd'.
    split; [reflexivity|]. split; [exact Hwf'|]. split; [exact Hlog|].
    split; [exact Hsw|]. split; [exact Hsh|]. rewrite Hw'. reflexivity.
  - rewrite Hd'.
    split; [reflexivity|]. split; [exact Hwf'|]. split; [exact Hlog|].
    split; [exact Hsw|]. split; [exact Hsh|]. rewrite Hw'. reflexivity.
Qed.

(** The windows a caller reads from the destination of the copying feed
    at its ready calls are those of the reference sliding window over the
    same stream, started from the ring read oldest first and from the hop
    counter. *)
Lemma feedCopy_windows_slide xs : forall w dst,
  Ring_wf w ->
  (Z.to_nat (SlidingWindow.sizeWin w) <= length dst)%nat ->
  feedCopy_windows w dst xs
  = hop_windows (SlidingWindow.sizeHop w) (SlidingWindow.mHopCnt w)
      (logical w) xs.
Proof.
  unfold SlidingWindow.sizeWin, SlidingWindow.sizeHop.
  induction xs as [|x xs IH]; intros w dst Hwf Hdst; [reflexivity|].
  cbn [feedCopy_windows hop_windows].
  destruct (feedCopy_view w dst x Hwf Hdst)
    as (w' & Hcall & Hwf' & Hlog & Hsw & Hsh & Hcnt).
  pose proof (length_logical w' Hwf') as Hll.
  rewrite Hcall, <- Hlog. unfold SlidingWindow.sizeWin.
  destruct (Z.eqb_spec (SlidingWindow.mHopCnt w + 1) (SlidingWindow.mSizeHop w))
    as [He|Hne].
  - rewrite take_app_length' by (symmetry; exact Hll).
    rewrite IH; [rewrite Hsh, Hcnt; reflexivity|exact Hwf'|].
    rewrite length_app, length_drop, Hll, Hsw. lia.
  - rewrite IH; [rewrite Hsh, Hcnt; reflexivity|exact Hwf'|].
    rewrite Hsw. exact Hdst.
Qed.

(** The reference sliding window in closed form: the window number [j]
    is delivered after [(j + 1) * hop - cnt] samples and is the last
    [length L] samples of the stream up to there. *)
Lemma hop_windows_lookup xs : forall hop cnt (L : list T) (j : nat) W,
  0 <= cnt < hop -> (1 <= length L)%nat ->
  hop_windows hop cnt L xs !! j = Some W ->
  let b := Z.to_nat ((Z.of_nat j + 1) * hop - cnt) in
  (b <= length xs)%nat /\ W = drop b (L ++ take b xs).
Proof.
  induction xs as [|x xs IH]; intros hop cnt L j W Hc HL Hj;
    [discriminate Hj|].
  cbn [hop_windows] in Hj. cbn zeta.
  assert (HL' : (1 <= length (drop 1 L ++ [x]))%nat).
  { rewrite length_app. cbn. lia. }
  assert (Hslide : forall b : nat,
            drop (S b) (L ++ x :: take b xs)
            = drop b ((drop 1 L ++ [x]) ++ take b xs)).
  { intros b. replace (S b) with (1 + b)%nat by lia.
    rewrite <- drop_drop. rewrite (drop_app_le L) by lia.
    rewrite <- app_assoc. reflexivity. }
  destruct (Z.eqb_spec (cnt + 1) hop) as [He|Hne].
  - destruct j as [|j].
    + cbn in Hj. injection Hj as <-.
      replace (Z.to_nat ((Z.of_nat 0 + 1) * hop - cnt)) with 1%nat by lia.
      cbn [length take]. split; [lia|].
      rewrite take_0, (drop_app_le L) by lia. reflexivity.
    + cbn in Hj.
      destruct (IH hop 0 (drop 1 L ++ [x]) j W ltac:(lia) HL' Hj) as [Hb HW].
      replace (Z.to_nat ((Z.of_nat (S j) + 1) * hop - cnt))
        with (S (Z.to_nat ((Z.of_nat j + 1) * hop - 0))) by nia.
      cbn [length take]. split; [lia|].
      rewrite Hslide. exact HW.
  - destruct (IH hop (cnt + 1) (drop 1 L ++ [x]) j W ltac:(lia) HL' Hj)
      as [Hb HW].
    replace (Z.to_nat ((Z.of_nat j + 1) * hop - cnt))
      with (S (Z.to_nat ((Z.of_nat j + 1) * hop - (cnt + 1)))) by nia.
    cbn [length take]. split; [lia|].
    rewrite Hslide. exact HW.
Qed.

Lemma hop_windows_length xs : forall hop cnt (L : list T),
  0 <= cnt < hop ->
  Z.of_nat (length (hop_windows hop cnt L xs))
  = (cnt + Z.of_nat (length xs)) / hop.
Proof.
  induction xs as [|x xs IH]; intros hop cnt L Hc.
  - cbn. rewrite Z.add_0_r, Z.div_small by lia. reflexivity.
  - cbn [hop_windows length].
    destruct (Z.eqb_spec (cnt + 1) hop) as [He|Hne].
    + cbn [length]. rewrite !Nat2Z.inj_succ, IH by lia.
      replace (cnt + Z.succ (Z.of_nat (length xs)))
        with (0 + Z.of_nat (length xs) + 1 * hop) by lia.
      rewrite Z.div_add by lia. lia.
    + rewrite Nat2Z.inj_succ, IH by lia. f_equal. lia.
Qed.

(** X1: over any run of the rotating feed from a state within its
    invariant, the ready calls number [(tap + n) / hop], and the window
    read at the ready call number [j] is the last [sizeWin()] samples of
    the stream (the window before the run followed by the samples fed) as
    it stands after [(j + 1) * hop - tap] samples. *)
Theorem feed_windows_closed w xs :
  SlidingWindow_wf w ->
  Z.of_nat (length (feed_windows w xs))
  = (SlidingWindow.mTapW w + Z.of_nat (length xs)) / SlidingWindow.sizeHop w /\
  (forall (j : nat) W,
     feed_windows w xs !! j = Some W ->
     let b := Z.to_nat ((Z.of_nat j + 1) * SlidingWindow.sizeHop w
                        - SlidingWindow.mTapW w) in
     (b <= length xs)%nat /\
     W = drop b (logical w ++ take b xs) /\
     length W = Z.to_nat (SlidingWindow.sizeWin w)).
Proof.
  intros Hwf. rewrite (feed_windows_slide xs w Hwf).
  destruct Hwf as (Ht & Hh & Hw & Hlen).
  assert (Hll : length (logical w) = Z.to_nat (SlidingWindow.mSizeWin w)).
  { unfold logical. rewrite length_app, length_drop, length_take. lia. }
  unfold SlidingWindow.sizeHop, SlidingWindow.sizeWin.
  split; [apply hop_windows_length; lia|].
  intros j W Hj.
  destruct (hop_windows_lookup xs (SlidingWindow.mSizeHop w)
              (SlidingWindow.mTapW w) (logical w) j W
              ltac:(lia) ltac:(lia) Hj) as [Hb HW].
  split; [exact Hb|]. split; [exact HW|].
  rewrite HW, length_drop, length_app, length_take, Hll. lia.
Qed.

(** X2: over any run of the copying feed from a state within its
    invariant, with a destination of at least [sizeWin()] slots, the
    ready calls number [(hop count + n) / hop], and the window left in the
    destination by the ready call number [j] is the last [sizeWin()]
    samples of the stream as it stands after [(j + 1) * hop - hop count]
    samples. *)
Theorem feedCopy_windows_closed w dst xs :
  Ring_wf w ->
  (Z.to_nat (SlidingWindow.sizeWin w) <= length dst)%nat ->
  Z.of_nat (length (feedCopy_windows w dst xs))
  = (SlidingWindow.mHopCnt w + Z.of_nat (length xs)) / SlidingWindow.sizeHop w /\
  (forall (j : nat) W,
     feedCopy_windows w dst xs !! j = Some W ->
     let b := Z.to_nat ((Z.of_nat j + 1) * SlidingWindow.sizeHop w
                        - SlidingWindow.mHopCnt w) in
     (b <= length xs)%nat /\
     W = drop b (logical w ++ take b xs) /\
     length W = Z.to_nat (SlidingWindow.sizeWin w)).
Proof.
  intros Hwf Hdst. rewrite (feedCopy_windows_slide xs w dst Hwf Hdst).
  pose proof (length_logical w Hwf) as Hll.
  destruct Hwf as (Ht & Hw & Hc & Hh & Hlen).
  unfold SlidingWindow.sizeHop, SlidingWindow.sizeWin.
  split; [apply hop_windows_length; lia|].
  intros j W Hj.
  destruct (hop_windows_lookup xs (SlidingWindow.mSizeHop w)
              (SlidingWindow.mHopCnt w) (logical w) j W
              ltac:(lia) ltac:(lia) Hj) as [Hb HW].
  split; [exact Hb|]. split; [exact HW|].
  rewrite HW, length_drop, length_app, length_take, Hll. lia.
Qed.

(** X3: the two feeds deliver the same windows: from a state whose write
    tap and hop counter agree, whatever the destination of the copying
    feed holds. *)
Theorem feed_modes_agree w dst xs :
  SlidingWindow_wf w -> Ring_wf w ->
  SlidingWindow.mTapW w = SlidingWindow.mHopCnt w ->
  (Z.to_nat (SlidingWindow.sizeWin w) <= length dst)%nat ->
  feed_windows w xs = feedCopy_windows w dst xs.
Proof.
  intros Hwf Hring Heq Hdst.
  rewrite (feed_windows_slide xs w Hwf).
  rewrite (feedCopy_windows_slide xs w dst Hring Hdst).
  rewrite Heq. reflexivity.
Qed.
End Sliding.

(** ** [SlidingWindow]: constructed windows, and a lowered hop size *)

Section WindowRuns.
Context {T : Type} `{Numeric T}.
Variable clip : Z -> Z -> Z -> Z.
Hypothesis clip_ok : clip_contract clip.
Variable fresh : nat -> T.
Implicit Types w : SlidingWindow.t (T := T).

Lemma feeds_wf xs : forall w,
  SlidingWindow_wf w -> SlidingWindow_wf (snd (SlidingWindow.feeds w xs)).
Proof.
  induction xs as [|x xs IH]; intros w Hwf; [exact Hwf|].
  cbn [SlidingWindow.feeds].
  pose proof (feed_wf w x Hwf) as Hwf'.
  destruct (SlidingWindow.feed w x) as [b w1]. cbn [snd] in Hwf'.
  specialize (IH w1 Hwf').
  destruct (SlidingWindow.feeds w1 xs) as [bs w2]. exact IH.
Qed.

(** X4: a window constructed with a size in [[1, 2^32)] has its hop size
    in [[1, winSize]], and whatever is fed to it, through either feed,
    its write tap stays inside the buffer: below the hop size under the
    rotating feed, below the window size under the copying feed, whose
    hop counter stays below the hop size. *)
Theorem constructed_window_invariants tapW0 winSize hopSize :
  1 <= winSize < 2 ^ 32 ->
  let w0 := SlidingWindow.create clip fresh tapW0 winSize hopSize in
  1 <= SlidingWindow.sizeHop w0 <= SlidingWindow.sizeWin w0 /\
  (forall xs, SlidingWindow_wf (snd (SlidingWindow.feeds w0 xs))) /\
  (forall dst xs,
     (Z.to_nat winSize <= length dst)%nat ->
     Ring_wf (snd (fst (SlidingWindow.feedCopies w0 dst xs)))).
Proof.
  intros Hwin w0.
  destruct (create_window_wf clip clip_ok fresh tapW0 winSize hopSize Hwin)
    as (Hwf & Hring & Hsz & Hhop).
  fold w0 in Hwf, Hring, Hsz, Hhop.
  split; [rewrite Hsz; exact Hhop|]. split.
  - intros xs. apply feeds_wf. exact Hwf.
  - intros dst xs Hdst.
    destruct (SlidingWindow.feedCopies w0 dst xs) as [[bs w1] d1] eqn:Hrun.
    unfold SlidingWindow.sizeWin in Hsz.
    destruct (feedCopies_ring xs w0 dst bs w1 d1 Hring ltac:(rewrite Hsz; lia)
                Hrun) as (Hwf1 & _).
    exact Hwf1.
Qed.

Lemma feedCopies_stall xs : forall w dst,
  0 <= SlidingWindow.mHopCnt w ->
  SlidingWindow.mSizeHop w <= SlidingWindow.mHopCnt w ->
  SlidingWindow.mHopCnt w + Z.of_nat (length xs) < 2 ^ 32 ->
  fst (fst (SlidingWindow.feedCopies w dst xs)) = replicate (length xs) false /\
  snd (SlidingWindow.feedCopies w dst xs) = dst /\
  SlidingWindow.mHopCnt (snd (fst (SlidingWindow.feedCopies w dst xs)))
  = SlidingWindow.mHopCnt w + Z.of_nat (length xs).
Proof.
  induction xs as [|x xs IH]; intros w dst H0 Hge Hlt.
  - cbn. repeat split. lia.
  - cbn [SlidingWindow.feedCopies length] in *.
    unfold SlidingWindow.feedCopy, SlidingWindow.sizeHop.
    rewrite (wrap_small (SlidingWindow.mHopCnt w + 1))
      by (unfold is_u32; lia).
    destruct (Z.eqb_spec (SlidingWindow.mHopCnt w + 1) (SlidingWindow.mSizeHop w))
      as [He|Hne]; [lia|].
    match goal with
    | |- context [SlidingWindow.feedCopies ?w1 dst xs] =>
        specialize (IH w1 dst); cbn [SlidingWindow.mHopCnt SlidingWindow.mSizeHop] in IH;
        destruct IH as (Hf & Hd & Hc); [lia | lia | lia |];
        destruct (SlidingWindow.feedCopies w1 dst xs) as [[bs w2] d2]
    end.
    cbn [fst snd] in *. subst bs d2. cbn [replicate].
    repeat split. lia.
Qed.

(** X5: when [sizeHop(size)] lowers the hop size to or below the count of
    samples already taken in the current hop, the rotating feed, which
    compares with [>=], is ready at the very next call, whereas the
    copying feed, which compares with [==], is not ready at any of the
    following calls, as long as its 32-bit counter has not wrapped, and
    leaves the destination untouched. *)
Theorem lowered_hop_size w (newHop : Z) x dst xs :
  1 <= newHop <= SlidingWindow.sizeWin w ->
  let w' := SlidingWindow.set_sizeHop clip w newHop in
  (SlidingWindow_wf w -> newHop <= SlidingWindow.mTapW w + 1 ->
   fst (SlidingWindow.feed w' x) = true /\
   SlidingWindow.mTapW (snd (SlidingWindow.feed w' x)) = 0) /\
  (Ring_wf w -> newHop <= SlidingWindow.mHopCnt w ->
   SlidingWindow.mHopCnt w + Z.of_nat (length xs) < 2 ^ 32 ->
   fst (fst (SlidingWindow.feedCopies w' dst xs)) = replicate (length xs) false /\
   snd (SlidingWindow.feedCopies w' dst xs) = dst).
Proof.
  intros Hnew w'. unfold SlidingWindow.sizeWin in Hnew.
  destruct (clip_ok newHop (SlidingWindow.mSizeWin w) 1 ltac:(lia))
    as (_ & _ & Hin).
  assert (Hhop : SlidingWindow.mSizeHop w' = newHop).
  { unfold w', SlidingWindow.set_sizeHop, SlidingWindow.sizeWin. cbn.
    apply Hin. lia. }
  assert (Htap : SlidingWindow.mTapW w' = SlidingWindow.mTapW w) by reflexivity.
  assert (Hcnt : SlidingWindow.mHopCnt w' = SlidingWindow.mHopCnt w) by reflexivity.
  split.
  - intros (Ht & Hh & Hw & Hlen) Hle.
    unfold SlidingWindow.feed, SlidingWindow.sizeHop.
    rewrite Hhop, Htap. rewrite wrap_small by (unfold is_u32; lia).
    destruct (Z.leb_spec newHop (SlidingWindow.mTapW w + 1)); [|lia].
    split; reflexivity.
  - intros (Ht & Hw & Hc & Hh & Hlen) Hle Hlt.
    destruct (feedCopies_stall xs w' dst) as (Hf & Hd & _);
      [rewrite Hcnt; lia | rewrite Hhop, Hcnt; lia | rewrite Hcnt; lia |].
    split; assumption.
Qed.
End WindowRuns.

(** ** [DFTBase]: clearing the bins *)

Section Clearing.
Context {T : Type} `{Numeric T}.
Implicit Types d : DFTBase.t (T := T).

Lemma set_bin_id (buf : list T) k (c : Complex T) :
  0 <= k -> (Z.to_nat (2 * k + 1) < length buf)%nat ->
  DFTBase.get_bin buf k = c -> DFTBase.set_bin buf k c = buf.
Proof.
  intros Hk Hlen <-. unfold DFTBase.set_bin, DFTBase.get_bin. cbn [re im].
  rewrite (list_insert_id buf (Z.to_nat (2 * k))).
  - apply list_insert_id.
    destruct (nth_lookup_or_length buf (Z.to_nat (2 * k + 1)) zero) as [E|E];
      [exact E|lia].
  - destruct (nth_lookup_or_length buf (Z.to_nat (2 * k)) zero) as [E|E];
      [exact E|lia].
Qed.

Lemma get_bin_replicate n k :
  DFTBase.get_bin (replicate n zero) k = mkComplex zero zero.
Proof.
  unfold DFTBase.get_bin. f_equal.
  - rewrite nth_lookup.
    destruct (replicate n zero !! Z.to_nat (2 * k)) as [y|] eqn:E;
      [|reflexivity].
    apply lookup_replicate in E as [-> _]. reflexivity.
  - rewrite nth_lookup.
    destruct (replicate n zero !! Z.to_nat (2 * k + 1)) as [y|] eqn:E;
      [|reflexivity].
    apply lookup_replicate in E as [-> _]. reflexivity.
Qed.

(** X6: [zero()] leaves a buffer of [sizeDFT() + 2] zeros, so every bin
    reads [(0, 0)]; a [zeroEnds()] after it changes nothing. *)
Theorem zero_clears_all d :
  DFTBase_wf d ->
  DFTBase.mBuf (DFTBase.zero_bins d)
  = replicate (Z.to_nat (DFTBase.sizeDFT d + 2)) zero /\
  (forall k, 0 <= k < DFTBase.numBins d ->
     DFTBase.bin (DFTBase.zero_bins d) k = mkComplex zero zero) /\
  DFTBase.zeroEnds (DFTBase.zero_bins d) = DFTBase.zero_bins d /\
  DFTBase_wf (DFTBase.zero_bins d).
Proof.
  intros Hwf. pose proof (numBins_range d Hwf) as [Hnb1 Hnb2].
  destruct Hwf as (H0 & H1 & Hlen).
  assert (Hz : DFTBase.zero_bins d
               = DFTBase.mk (DFTBase.mSizeDFT d)
                   (replicate (Z.to_nat (DFTBase.sizeDFT d + 2)) zero)).
  { unfold DFTBase.zero_bins.
    rewrite wrap_small by (unfold is_u32; lia).
    unfold mem.deepZero. rewrite drop_ge, app_nil_r by lia.
    do 2 f_equal. lia. }
  rewrite Hz. cbn [DFTBase.mBuf].
  split; [reflexivity|]. split.
  { intros k _. unfold DFTBase.bin. cbn [DFTBase.mBuf].
    apply get_bin_replicate. }
  split.
  - unfold DFTBase.zeroEnds, DFTBase.numBins, DFTBase.sizeDFT in *.
    cbn [DFTBase.mBuf DFTBase.mSizeDFT]. f_equal.
    rewrite (wrap_small (Z.shiftr _ 1 - 1)) by (unfold is_u32; lia).
    rewrite (set_bin_id (replicate _ zero) 0);
      [|lia|rewrite length_replicate; lia|apply get_bin_replicate].
    apply set_bin_id;
      [lia|rewrite length_replicate; lia|apply get_bin_replicate].
  - unfold DFTBase_wf, DFTBase.sizeDFT in *. cbn [DFTBase.mBuf DFTBase.mSizeDFT].
    rewrite length_replicate. repeat split; lia.
Qed.

(** X7: [zeroEnds()] writes the four slots of bin 0 and bin
    [numBins() - 1] and no other slot of the buffer, keeps its length,
    and doing it twice is doing it once. *)
Theorem zeroEnds_frame d :
  DFTBase_wf d ->
  let d' := DFTBase.zeroEnds d in
  let last := DFTBase.numBins d - 1 in
  length (DFTBase.mBuf d') = length (DFTBase.mBuf d) /\
  (forall i : nat,
     Z.of_nat i <> 0 -> Z.of_nat i <> 1 ->
     Z.of_nat i <> 2 * last -> Z.of_nat i <> 2 * last + 1 ->
     DFTBase.mBuf d' !! i = DFTBase.mBuf d !! i) /\
  DFTBase.zeroEnds d' = d' /\
  DFTBase_wf d'.
Proof.
  intros Hwf d' last. pose proof (numBins_range d Hwf) as [Hnb1 Hnb2].
  destruct (zeroEnds_bins d Hwf) as (Hb0 & Hbl & _).
  destruct Hwf as (H0 & H1 & Hlen).
  assert (Hlen' : length (DFTBase.mBuf d') = length (DFTBase.mBuf d)).
  { unfold d', DFTBase.zeroEnds. cbn [DFTBase.mBuf].
    rewrite !length_set_bin. reflexivity. }
  assert (Hnb' : DFTBase.numBins d' = DFTBase.numBins d) by reflexivity.
  split; [exact Hlen'|]. split.
  { intros i Hi0 Hi1 Hi2 Hi3. unfold d', DFTBase.zeroEnds, DFTBase.set_bin.
    cbn [DFTBase.mBuf re im].
    rewrite (wrap_small (DFTBase.numBins d - 1)) by (unfold is_u32; lia).
    fold last. rewrite !list_lookup_insert_ne by lia. reflexivity. }
  split.
  - unfold DFTBase.bin in Hb0, Hbl. fold d' in Hb0, Hbl.
    unfold DFTBase.zeroEnds at 1. rewrite Hnb'.
    rewrite (wrap_small (DFTBase.numBins d - 1)) by (unfold is_u32; lia).
    rewrite (set_bin_id (DFTBase.mBuf d') 0); [|lia|lia|exact Hb0].
    rewrite set_bin_id; [|lia|unfold DFTBase.sizeDFT in *; lia|exact Hbl].
    destruct d' as [sz buf]. reflexivity.
  - unfold DFTBase_wf. rewrite Hlen'. repeat split; assumption.
Qed.
End Clearing.

(** ** [DFTBase]: the auxiliary buffers *)

Section AuxBuffers.
Context {T : Type} `{Numeric T}.
Variable fresh : nat -> T.
Implicit Types d : DFTAux.t (T := T).

Lemma deepZero_at (A : list T) (off : nat) (n : Z) :
  (off + Z.to_nat n <= length A)%nat ->
  take off A ++ mem.deepZero (drop off A) n
  = take off A ++ replicate (Z.to_nat n) zero ++ drop (off + Z.to_nat n) A.
Proof.
  intros Hlen. unfold mem.deepZero. rewrite length_drop.
  rewrite drop_drop. do 3 f_equal. lia.
Qed.

Lemma lookup_zeroed (A : list T) (off n i : nat) :
  (off + n <= length A)%nat ->
  (take off A ++ replicate n zero ++ drop (off + n) A) !! i
  = if decide (off <= i < off + n)%nat then Some zero else A !! i.
Proof.
  intros Hlen. destruct (decide (off <= i < off + n)%nat) as [Hin|Hout].
  - rewrite lookup_app_r by (rewrite length_take; lia).
    rewrite length_take, lookup_app_l by (rewrite length_replicate; lia).
    apply lookup_replicate_2. lia.
  - destruct (Nat.lt_ge_cases i off) as [Hlt|Hge].
    + rewrite lookup_app_l by (rewrite length_take; lia).
      apply lookup_take_lt. exact Hlt.
    + rewrite lookup_app_r by (rewrite length_take; lia).
      rewrite length_take.
      rewrite lookup_app_r by (rewrite length_replicate; lia).
      rewrite length_replicate, lookup_drop. f_equal. lia.
Qed.

(** X8: [zeroAux(num)], for one of the [mNumAux] buffers, zeroes the
    [numBins()] slots from [aux(num)] on and leaves every other slot of
    the auxiliary storage, hence every other buffer, as it was;
    [zeroAux()] zeroes them all. *)
Theorem zeroAux_frame d num :
  DFTAux_wf d -> 0 <= num < DFTAux.mNumAux d ->
  let nb := DFTAux.numBins d in
  let d' := DFTAux.zeroAux_num d num in
  DFTAux.aux d num = num * nb /\
  DFTAux.aux d num + nb <= Z.of_nat (length (DFTAux.mAux d)) /\
  length (DFTAux.mAux d') = length (DFTAux.mAux d) /\
  (forall i : nat,
     num * nb <= Z.of_nat i < (num + 1) * nb ->
     DFTAux.mAux d' !! i = Some zero) /\
  (forall i : nat,
     ~ (num * nb <= Z.of_nat i < (num + 1) * nb) ->
     DFTAux.mAux d' !! i = DFTAux.mAux d !! i) /\
  DFTAux.mAux (DFTAux.zeroAux d)
  = replicate (length (DFTAux.mAux d)) zero.
Proof.
  intros (Hbase & Hn0 & Hprod & Hlen) Hnum nb d'.
  pose proof (numBins_range _ Hbase) as [Hnb1 _].
  fold (DFTAux.numBins d) in Hnb1. fold nb in Hnb1, Hprod, Hlen.
  assert (Hoff : DFTAux.aux d num = num * nb).
  { unfold DFTAux.aux. fold nb. rewrite wrap_small by (unfold is_u32; nia).
    lia. }
  assert (Hfit : num * nb + nb <= DFTAux.mNumAux d * nb) by nia.
  assert (Hd' : DFTAux.mAux d'
                = take (Z.to_nat (num * nb)) (DFTAux.mAux d)
                    ++ replicate (Z.to_nat nb) zero
                    ++ drop (Z.to_nat (num * nb) + Z.to_nat nb) (DFTAux.mAux d)).
  { unfold d', DFTAux.zeroAux_num. cbn [DFTAux.mAux]. rewrite Hoff. fold nb.
    apply deepZero_at. nia. }
  split; [exact Hoff|]. split; [rewrite Hoff; nia|]. split.
  { rewrite Hd', !length_app, length_take, length_replicate, length_drop.
    nia. }
  split; [|split].
  - intros i Hi. rewrite Hd', lookup_zeroed by nia.
    destruct (decide _) as [_|Hout]; [reflexivity|nia].
  - intros i Hi. rewrite Hd', lookup_zeroed by nia.
    destruct (decide _) as [Hin|_]; [nia|reflexivity].
  - unfold DFTAux.zeroAux. cbn [DFTAux.mAux]. fold nb.
    rewrite wrap_small by (unfold is_u32; nia).
    rewrite deepZero_all by exact Hlen. f_equal. lia.
Qed.

End AuxBuffers.

(** ** [DFT]: the inverse transform runs once per hop *)

Section InverseEveryHop.
Context {T Bufs : Type}.
Variable inverse : DFT.t (Bufs := Bufs) -> Bufs.
Variable bufInv : Bufs -> Z -> T.
Implicit Types d : DFT.t (Bufs := Bufs).

Lemma next_sample_tap d :
  DFT_wf d ->
  let d' := snd (DFT.next_sample inverse bufInv d) in
  DFT.mSizeHop d' = DFT.mSizeHop d /\
  DFT.mTapR d' = (if DFT.mTapR d + 1 =? DFT.mSizeHop d
                  then 0 else DFT.mTapR d + 1) /\
  DFT.nInverse d' = (if DFT.mTapR d + 1 =? DFT.mSizeHop d
                     then S (DFT.nInverse d) else DFT.nInverse d) /\
  fst (DFT.next_sample inverse bufInv d)
  = bufInv (DFT.bufs d') (DFT.mTapR d').
Proof.
  unfold DFT_wf, DFT.next_sample, DFT.sizeHop. intros [Hh Ht]. cbn.
  rewrite wrap_small by (unfold is_u32; lia).
  destruct (Z.leb_spec (DFT.mSizeHop d) (DFT.mTapR d + 1));
    destruct (Z.eqb_spec (DFT.mTapR d + 1) (DFT.mSizeHop d));
    try lia; cbn; repeat split.
Qed.

(** X10: over [n] calls of the sample operator from a state with the
    read tap below the hop size, the inverse transform runs
    [(tap + n) / hop] times, that is once every [sizeHop()] calls, the
    read tap ends at [(tap + n) mod hop] and stays below the hop size,
    and [inverseOnNext()] then holds exactly when that tap is
    [sizeHop() - 1]. *)
Theorem inverse_every_hop n : forall d,
  DFT_wf d ->
  let d' := next_samples inverse bufInv n d in
  Z.of_nat (DFT.nInverse d')
  = Z.of_nat (DFT.nInverse d) + (DFT.mTapR d + Z.of_nat n) / DFT.sizeHop d /\
  DFT.mTapR d' = (DFT.mTapR d + Z.of_nat n) mod DFT.sizeHop d /\
  DFT.sizeHop d' = DFT.sizeHop d /\
  DFT_wf d' /\
  (DFT.inverseOnNext d' = true <->
   (DFT.mTapR d + Z.of_nat n) mod DFT.sizeHop d = DFT.sizeHop d - 1).
Proof.
  assert (Hmain : forall n d, DFT_wf d ->
            let d' := next_samples inverse bufInv n d in
            Z.of_nat (DFT.nInverse d')
            = Z.of_nat (DFT.nInverse d)
              + (DFT.mTapR d + Z.of_nat n) / DFT.mSizeHop d /\
            DFT.mTapR d' = (DFT.mTapR d + Z.of_nat n) mod DFT.mSizeHop d /\
            DFT.mSizeHop d' = DFT.mSizeHop d /\
            DFT_wf d').
  { clear n. induction n as [|n IH]; intros d Hwf.
    - cbn [next_samples]. cbn zeta. pose proof Hwf as [Hh Ht].
      unfold DFT.sizeHop in *. rewrite Z.add_0_r.
      rewrite Z.div_small, Z.mod_small by lia.
      split; [lia|]. split; [reflexivity|]. split; [reflexivity|exact Hwf].
    - cbn [next_samples]. cbn zeta.
      pose proof (next_sample_wf inverse bufInv d Hwf) as Hwf1.
      destruct (next_sample_tap d Hwf) as (Hs1 & Ht1 & Hi1 & _).
      destruct (IH _ Hwf1) as (Hi & Ht & Hs & Hwf2).
      destruct Hwf as [Hh Htap]. unfold DFT.sizeHop in *.
      rewrite Hi, Ht, Hs, Hs1, Ht1, Hi1. clear Hi Ht Hs Hi1 Ht1.
      rewrite Nat2Z.inj_succ.
      destruct (Z.eqb_spec (DFT.mTapR d + 1) (DFT.mSizeHop d)) as [He|Hne].
      + replace (DFT.mTapR d + Z.succ (Z.of_nat n))
          with (0 + Z.of_nat n + 1 * DFT.mSizeHop d) by lia.
        rewrite Z.div_add, Z_mod_plus_full by lia.
        rewrite Nat2Z.inj_succ.
        split; [lia|]. split; [reflexivity|]. split; [reflexivity|exact Hwf2].
      + replace (DFT.mTapR d + Z.succ (Z.of_nat n))
          with (DFT.mTapR d + 1 + Z.of_nat n) by lia.
        split; [lia|]. split; [reflexivity|]. split; [reflexivity|exact Hwf2]. }
  intros d Hwf d'. destruct (Hmain n d Hwf) as (Hi & Ht & Hs & Hwf').
  fold d' in Hi, Ht, Hs, Hwf'. unfold DFT.sizeHop.
  split; [exact Hi|]. split; [exact Ht|]. split; [exact Hs|].
  split; [exact Hwf'|].
  unfold DFT.inverseOnNext, DFT.sizeHop. rewrite Hs, <- Ht.
  destruct Hwf as [Hh Htap]. unfold DFT.sizeHop in *.
  rewrite wrap_small by (unfold is_u32; lia).
  destruct (Z.eqb_spec (DFT.mTapR d') (DFT.mSizeHop d - 1));
    split; intros; try reflexivity; try assumption; try discriminate; lia.
Qed.
End InverseEveryHop.

(** ** [DFT] and [STFT]: what [forward] is handed *)

Section ForwardPath.
Context {T More : Type} `{Numeric T}.
Variable DFT_forward : STFT.t (T := T) (More := More) -> list T * More.
Variable STFT_forward : STFT.t (T := T) (More := More) -> list T * More.
Hypothesis DFT_forward_len : keeps_length DFT_forward.
Hypothesis STFT_forward_len : keeps_length STFT_forward.
Implicit Types d : STFT.t (T := T) (More := More).

(** The reference block stream in closed form. *)
Lemma blocks_lookup xs : forall hop (p : list T) (j : nat) B,
  Z.of_nat (length p) < hop ->
  blocks hop p xs !! j = Some B ->
  B = take (Z.to_nat hop) (drop (j * Z.to_nat hop) (p ++ xs)) /\
  length B = Z.to_nat hop.
Proof.
  induction xs as [|x xs IH]; intros hop p j B Hp Hj; [discriminate Hj|].
  cbn [blocks] in Hj.
  replace (p ++ x :: xs) with ((p ++ [x]) ++ xs)
    by (rewrite <- app_assoc; reflexivity).
  destruct (Z.eqb_spec (Z.of_nat (length (p ++ [x]))) hop) as [He|Hne].
  - destruct j as [|j].
    + cbn in Hj. injection Hj as <-. cbn [Nat.mul]. rewrite drop_0.
      split; [|lia]. rewrite take_app_length' by lia. reflexivity.
    + cbn in Hj. destruct (IH hop [] j B ltac:(cbn; lia) Hj) as [HB HlB].
      split; [|exact HlB]. rewrite HB. cbn [app Nat.mul].
      rewrite <- drop_drop. rewrite drop_app_length' by lia. reflexivity.
  - rewrite length_app in Hne. cbn [length] in Hne.
    apply (IH hop (p ++ [x]) j B); [|exact Hj].
    rewrite length_app. cbn [length]. lia.
Qed.

Lemma blocks_length xs : forall hop (p : list T),
  Z.of_nat (length p) < hop ->
  Z.of_nat (length (blocks hop p xs))
  = (Z.of_nat (length p) + Z.of_nat (length xs)) / hop.
Proof.
  induction xs as [|x xs IH]; intros hop p Hp.
  - cbn. rewrite Z.add_0_r, Z.div_small by lia. reflexivity.
  - cbn [blocks length]. rewrite length_app. cbn [length].
    destruct (Z.eqb_spec (Z.of_nat (length p + 1)) hop) as [He|Hne].
    + cbn [length]. rewrite !Nat2Z.inj_succ, IH by (cbn; lia). cbn [length].
      replace (Z.of_nat (length p) + Z.succ (Z.of_nat (length xs)))
        with (Z.of_nat 0 + Z.of_nat (length xs) + 1 * hop) by lia.
      rewrite Z.div_add by lia. lia.
    + rewrite IH by (rewrite length_app; cbn [length]; lia).
      rewrite length_app. cbn [length]. f_equal. lia.
Qed.

Lemma DFT_feed_step d x :
  DFT_feed_wf d ->
  let r := STFT.DFT_feed DFT_forward d x in
  let ready := STFT.mTapW d + 1 =? STFT.mSizeHop d in
  fst r = ready /\
  DFT_feed_wf (snd r) /\
  STFT.mSizeHop (snd r) = STFT.mSizeHop d /\
  (if ready
   then STFT.fwdLog (snd r) = STFT.fwdLog d ++ [pending d ++ [x]] /\
        STFT.mTapW (snd r) = 0
   else STFT.fwdLog (snd r) = STFT.fwdLog d /\
        pending (snd r) = pending d ++ [x]).
Proof.
  intros (Ht & Hh & Hwin & Hlen). cbn zeta.
  assert (Hwr : take (S (Z.to_nat (STFT.mTapW d)))
                  (drop 1 (<[Z.to_nat (1 + STFT.mTapW d) := x]> (STFT.mBuf d)))
                = pending d ++ [x]).
  { unfold pending, STFT.bufPos.
    rewrite drop_insert_ge by lia.
    replace (Z.to_nat (1 + STFT.mTapW d) - 1)%nat
      with (Z.to_nat (STFT.mTapW d)) by lia.
    rewrite (take_S_r _ _ x)
      by (apply list_lookup_insert_eq; rewrite length_drop; lia).
    rewrite take_insert_ge by lia. reflexivity. }
  unfold STFT.DFT_feed, STFT.call_forward, STFT.sizeHop, STFT.sizeWin,
    STFT.bufPos.
  cbn [STFT.mBuf STFT.mSizeWin STFT.mSizeHop STFT.mTapW STFT.mSlide
       STFT.more STFT.fwdLog].
  rewrite wrap_small by (unfold is_u32; lia).
  destruct (Z.leb_spec (STFT.mSizeHop d) (STFT.mTapW d + 1));
    destruct (Z.eqb_spec (STFT.mTapW d + 1) (STFT.mSizeHop d)); try lia.
  - match goal with
    | |- context [DFT_forward ?d1] =>
        pose proof (DFT_forward_len d1) as Hfl;
        destruct (DFT_forward d1) as [buf m]
    end.
    cbn [fst snd STFT.mBuf] in *. rewrite length_insert in Hfl.
    unfold DFT_feed_wf.
    cbn [STFT.mBuf STFT.mSizeWin STFT.mSizeHop STFT.mTapW STFT.fwdLog].
    replace (Z.to_nat (STFT.mSizeWin d))
      with (S (Z.to_nat (STFT.mTapW d))) by lia.
    rewrite Hwr. repeat split; lia.
  - cbn [fst snd]. unfold DFT_feed_wf, pending at 1, STFT.bufPos.
    cbn [STFT.mBuf STFT.mSizeWin STFT.mSizeHop STFT.mTapW STFT.fwdLog].
    rewrite length_insert.
    replace (Z.to_nat (STFT.mTapW d + 1))
      with (S (Z.to_nat (STFT.mTapW d))) by lia.
    rewrite Hwr. repeat split; lia.
Qed.

Lemma DFT_feeds_log xs : forall d,
  DFT_feed_wf d ->
  STFT.fwdLog (STFT.DFT_feeds DFT_forward d xs)
  = STFT.fwdLog d ++ blocks (STFT.mSizeHop d) (pending d) xs.
Proof.
  induction xs as [|x xs IH]; intros d Hwf.
  - cbn. rewrite app_nil_r. reflexivity.
  - unfold STFT.DFT_feeds in *. cbn [foldl blocks].
    destruct (DFT_feed_step d x Hwf) as (_ & Hwf' & Hhop & Hcase).
    cbn zeta in Hwf', Hhop, Hcase.
    rewrite (IH _ Hwf'), Hhop.
    assert (Hlp : Z.of_nat (length (pending d ++ [x])) = STFT.mTapW d + 1).
    { destruct Hwf as (Ht & Hh & Hwin & Hlen).
      unfold pending, STFT.bufPos.
      rewrite length_app, length_take, length_drop. cbn [length]. lia. }
    rewrite Hlp.
    destruct (Z.eqb_spec (STFT.mTapW d + 1) (STFT.mSizeHop d)) as [He|Hne].
    + destruct Hcase as [Hlog Htap]. rewrite Hlog.
      assert (Hp' : pending (snd (STFT.DFT_feed DFT_forward d x)) = []).
      { unfold pending. rewrite Htap. reflexivity. }
      rewrite Hp', <- app_assoc. reflexivity.
    + destruct Hcase as [Hlog Hpend]. rewrite Hlog, Hpend. reflexivity.
Qed.

(** X11: fed sample by sample from a state with the write tap at 0, a
    [DFT] runs [forward] once every [sizeHop()] samples, [n / hop] times
    over [n] samples, and the window it hands to the call number [j] is
    the block of the samples [j * hop] to [(j + 1) * hop - 1] of the
    stream, in order: the blocks do not overlap and skip no sample. *)
Theorem DFT_forward_blocks d xs :
  DFT_feed_wf d -> STFT.mTapW d = 0 ->
  exists ws,
    STFT.fwdLog (STFT.DFT_feeds DFT_forward d xs) = STFT.fwdLog d ++ ws /\
    Z.of_nat (length ws) = Z.of_nat (length xs) / STFT.sizeHop d /\
    (forall (j : nat) B,
       ws !! j = Some B ->
       B = take (Z.to_nat (STFT.sizeHop d))
             (drop (j * Z.to_nat (STFT.sizeHop d)) xs)
       /\ length B = Z.to_nat (STFT.sizeHop d)).
Proof.
  intros Hwf Htap. exists (blocks (STFT.mSizeHop d) (pending d) xs).
  split; [apply DFT_feeds_log; exact Hwf|].
  assert (Hp : pending d = []).
  { unfold pending. rewrite Htap. reflexivity. }
  destruct Hwf as (Ht & Hh & Hwin & Hlen). unfold STFT.sizeHop.
  rewrite Hp. split.
  - rewrite blocks_length by (cbn; lia). cbn. reflexivity.
  - intros j B Hj. apply (blocks_lookup xs _ [] j B); [cbn; lia|exact Hj].
Qed.

Lemma STFT_feed_step d x :
  STFT_feed_wf d ->
  let r := STFT.feed STFT_forward d x in
  let sl := STFT.mSlide d in
  let ready := SlidingWindow.mHopCnt sl + 1 =? SlidingWindow.mSizeHop sl in
  fst r = ready /\
  STFT_feed_wf (snd r) /\
  SlidingWindow.mSizeHop (STFT.mSlide (snd r)) = SlidingWindow.mSizeHop sl /\
  SlidingWindow.mHopCnt (STFT.mSlide (snd r))
  = (if ready then 0 else SlidingWindow.mHopCnt sl + 1) /\
  logical (STFT.mSlide (snd r)) = drop 1 (logical sl) ++ [x] /\
  STFT.fwdLog (snd r)
  = (if ready then STFT.fwdLog d ++ [drop 1 (logical sl) ++ [x]]
     else STFT.fwdLog d) /\
  (ready = false -> STFT.mBuf (snd r) = STFT.mBuf d).
Proof.
  intros (Hring & Hwin & Hlen). cbn zeta.
  assert (Hdst : (Z.to_nat (SlidingWindow.mSizeWin (STFT.mSlide d))
                  <= length (STFT.bufPos d))%nat).
  { unfold STFT.bufPos. rewrite length_drop, Hwin. lia. }
  destruct (feedCopy_view (STFT.mSlide d) (STFT.bufPos d) x Hring Hdst)
    as (w' & Hcall & Hwf' & Hlog & Hsw & Hsh & Hcnt).
  pose proof (length_logical w' Hwf') as Hll.
  assert (Hhead : length (take 1 (STFT.mBuf d)) = 1%nat)
    by (rewrite length_take; lia).
  unfold STFT.feed. rewrite Hcall.
  destruct (Z.eqb_spec (SlidingWindow.mHopCnt (STFT.mSlide d) + 1)
              (SlidingWindow.mSizeHop (STFT.mSlide d))) as [He|Hne].
  - unfold STFT.call_forward, STFT.sizeWin, STFT.bufPos.
    cbn [STFT.mBuf STFT.mSizeWin STFT.mSizeHop STFT.mTapW STFT.mSlide
         STFT.more STFT.fwdLog].
    match goal with
    | |- context [STFT_forward ?d1] =>
        pose proof (STFT_forward_len d1) as Hfl;
        destruct (STFT_forward d1) as [buf m]
    end.
    cbn [fst snd STFT.mBuf] in *.
    rewrite !length_app, length_drop, Hhead, Hll in Hfl.
    unfold STFT.bufPos in Hfl. rewrite length_drop in Hfl.
    unfold STFT_feed_wf.
    cbn [STFT.mBuf STFT.mSizeWin STFT.mSlide STFT.fwdLog].
    rewrite (drop_app_length' (take 1 (STFT.mBuf d))) by lia.
    rewrite (take_app_length' (logical w')) by lia.
    rewrite Hlog.
    split; [reflexivity|]. split; [|split; [exact Hsh|split; [exact Hcnt|]]].
    { split; [exact Hwf'|]. split; [congruence|]. lia. }
    split; [reflexivity|]. split; [reflexivity|discriminate].
  - cbn [fst snd]. unfold STFT_feed_wf.
    cbn [STFT.mBuf STFT.mSizeWin STFT.mSlide STFT.fwdLog].
    unfold STFT.bufPos. rewrite take_drop.
    split; [reflexivity|]. split; [|split; [exact Hsh|split; [exact Hcnt|]]].
    { split; [exact Hwf'|]. split; [congruence|]. lia. }
    split; [exact Hlog|]. split; [reflexivity|]. intros _. reflexivity.
Qed.

Lemma STFT_feeds_log xs : forall d,
  STFT_feed_wf d ->
  STFT.fwdLog (STFT.feeds STFT_forward d xs)
  = STFT.fwdLog d
      ++ hop_windows (SlidingWindow.mSizeHop (STFT.mSlide d))
           (SlidingWindow.mHopCnt (STFT.mSlide d))
           (logical (STFT.mSlide d)) xs.
Proof.
  induction xs as [|x xs IH]; intros d Hwf.
  - cbn. rewrite app_nil_r. reflexivity.
  - unfold STFT.feeds in *. cbn [foldl hop_windows].
    destruct (STFT_feed_step d x Hwf)
      as (_ & Hwf' & Hhop & Hcnt & Hlog & Hfl & _).
    cbn zeta in Hwf', Hhop, Hcnt, Hlog, Hfl.
    rewrite (IH _ Hwf'), Hhop, Hcnt, Hlog, Hfl.
    destruct (Z.eqb_spec (SlidingWindow.mHopCnt (STFT.mSlide d) + 1)
                (SlidingWindow.mSizeHop (STFT.mSlide d))) as [He|Hne].
    + rewrite <- app_assoc. reflexivity.
    + reflexivity.
Qed.

(** X12: fed sample by sample, an [STFT] runs [forward] exactly at the
    ready calls of its sliding window, [(hop count + n) / hop] times over
    [n] samples, whatever [forward] does to the transform buffer in
    between; the window it hands to the call number [j] is the last
    [sizeWin()] samples of the stream, oldest first, as it stands after
    [(j + 1) * hop - hop count] samples. *)
Theorem STFT_forward_windows d xs :
  STFT_feed_wf d ->
  let sl := STFT.mSlide d in
  exists ws,
    STFT.fwdLog (STFT.feeds STFT_forward d xs) = STFT.fwdLog d ++ ws /\
    Z.of_nat (length ws)
    = (SlidingWindow.mHopCnt sl + Z.of_nat (length xs))
        / SlidingWindow.sizeHop sl /\
    (forall (j : nat) W,
       ws !! j = Some W ->
       let b := Z.to_nat ((Z.of_nat j + 1) * SlidingWindow.sizeHop sl
                          - SlidingWindow.mHopCnt sl) in
       (b <= length xs)%nat /\
       W = drop b (logical sl ++ take b xs) /\
       length W = Z.to_nat (STFT.sizeWin d)).
Proof.
  intros Hwf sl.
  exists (hop_windows (SlidingWindow.mSizeHop sl) (SlidingWindow.mHopCnt sl)
            (logical sl) xs).
  split; [apply STFT_feeds_log; exact Hwf|].
  destruct Hwf as (Hring & Hwin & Hlen). fold sl in Hring, Hwin.
  pose proof (length_logical sl Hring) as Hll.
  destruct Hring as (Ht & Hw & Hc & Hh & Hbuf).
  unfold SlidingWindow.sizeHop, STFT.sizeWin.
  split; [apply hop_windows_length; lia|].
  intros j W Hj.
  destruct (hop_windows_lookup xs (SlidingWindow.mSizeHop sl)
              (SlidingWindow.mHopCnt sl) (logical sl) j W
              ltac:(lia) ltac:(lia) Hj) as [Hb HW].
  split; [exact Hb|]. split; [exact HW|].
  rewrite HW, length_drop, length_app, length_take, Hll. lia.
Qed.
End ForwardPath.

(** ** [SlidingDFT]: a constructed or resized transform *)

Section SlidingRuns.
Context {T D : Type} `{Numeric T} `{Numeric D} `{ComplexArith T D}.
Variable fresh : nat -> T.
Implicit Types s : SlidingDFT.t (T := T).

Lemma delayed_spec (n : nat) (hist : list T) :
  delayed n hist
  = if (length hist <? n)%nat then zero
    else nth (length hist - n) hist zero.
Proof.
  unfold delayed. rewrite !nth_lookup.
  destruct (Nat.ltb_spec (length hist) n) as [Hlt|Hge].
  - rewrite lookup_app_l by (rewrite length_replicate; exact Hlt).
    rewrite lookup_replicate_2 by exact Hlt. reflexivity.
  - rewrite lookup_app_r by (rewrite length_replicate; exact Hge).
    rewrite length_replicate. reflexivity.
Qed.

Lemma resize_wf s size binLo binHi :
  SlidingDFT_sized s ->
  0 < size -> size + 2 < 2 ^ 32 -> 0 <= binLo ->
  binHi <= Z.shiftr (size + 2) 1 ->
  SlidingDFT_wf (SlidingDFT.resize fresh s size binLo binHi) /\
  Delay_tracks
    (SlidingDFT.mDelay (SlidingDFT.resize fresh s size binLo binHi)) size [] /\
  DFTBase.mBuf (SlidingDFT.base (SlidingDFT.resize fresh s size binLo binHi))
  = replicate (Z.to_nat (size + 2)) zero.
Proof.
  intros Hsz Hs Hs2 Hlo Hhi. unfold SlidingDFT.resize.
  pose proof (length_mem_resize fresh (DFTBase.mBuf (SlidingDFT.base s))
                (wrap (DFTBase.mSizeDFT (SlidingDFT.base s) + 2))
                (wrap (size + 2)) Hsz) as Hlen.
  destruct (mem.resize _ _ _ _) as [ok b1]. cbn [snd] in Hlen.
  rewrite deepZero_all by exact Hlen.
  rewrite wrap_small by (unfold is_u32; lia).
  split; [|split; [|reflexivity]].
  - unfold SlidingDFT_wf, DFTBase_wf, SlidingDFT.interval, SlidingDFT.sizeDFT,
      DFTBase.numBins, DFTBase.sizeDFT.
    cbn [SlidingDFT.base SlidingDFT.mBinLo SlidingDFT.mBinHi SlidingDFT.mF1
         SlidingDFT.mFL SlidingDFT.mNorm DFTBase.mBuf DFTBase.mSizeDFT].
    rewrite length_replicate.
    rewrite wrap_small by (unfold is_u32; lia).
    repeat split; try lia.
  - cbn [SlidingDFT.interval SlidingDFT.mDelay].
    apply delay_resize_tracks. exact Hs.
Qed.

End SlidingRuns.

(** ** [SlidingWindow::resize] on a window in use *)

Section ResizeInUse.
Context {T : Type} `{Numeric T}.
Variable clip : Z -> Z -> Z -> Z.
Hypothesis clip_ok : clip_contract clip.
Variable fresh : nat -> T.
Implicit Types w : SlidingWindow.t (T := T).

(** X15: [resize(winSize, hopSize)] with [winSize] in [[1, 2^32)], on a
    window whose buffer has [sizeWin()] slots, leaves a window within the
    invariant of the rotating feed, with that window size, a hop size in
    [[1, winSize]] and the write tap at 0; the samples in the slots that
    both sizes have are kept, and the hop counter of the copying feed is
    left at its value. *)
Theorem resize_reestablishes w winSize hopSize :
  length (SlidingWindow.mBuf w) = Z.to_nat (SlidingWindow.sizeWin w) ->
  1 <= winSize < 2 ^ 32 ->
  let w' := SlidingWindow.resize clip fresh w winSize hopSize in
  SlidingWindow_wf w' /\
  SlidingWindow.sizeWin w' = winSize /\
  1 <= SlidingWindow.sizeHop w' <= winSize /\
  SlidingWindow.mHopCnt w' = SlidingWindow.mHopCnt w /\
  (forall i : nat,
     (i < Z.to_nat (SlidingWindow.sizeWin w))%nat ->
     (i < Z.to_nat winSize)%nat ->
     SlidingWindow.mBuf w' !! i = SlidingWindow.mBuf w !! i).
Proof.
  intros Hlen Hwin w'. unfold SlidingWindow.sizeWin in *.
  pose proof (length_mem_resize fresh (SlidingWindow.mBuf w)
                (SlidingWindow.mSizeWin w) winSize Hlen) as Hres.
  assert (Hw' : exists buf,
            w' = SlidingWindow.mk buf winSize (clip hopSize winSize 1) 0
                   (SlidingWindow.mHopCnt w) /\
            length buf = Z.to_nat winSize /\
            (forall i : nat,
               (i < Z.to_nat (SlidingWindow.mSizeWin w))%nat ->
               (i < Z.to_nat winSize)%nat ->
               buf !! i = SlidingWindow.mBuf w !! i)).
  { unfold w', SlidingWindow.resize, SlidingWindow.set_sizeHop,
      SlidingWindow.set_sizeWin, SlidingWindow.sizeWin.
    unfold mem.resize in *.
    destruct (Z.eqb_spec (SlidingWindow.mSizeWin w) winSize) as [He|Hne];
      cbn [snd] in Hres;
      cbn [SlidingWindow.mBuf SlidingWindow.mSizeWin SlidingWindow.mSizeHop
           SlidingWindow.mTapW SlidingWindow.mHopCnt].
    - exists (SlidingWindow.mBuf w). rewrite He.
      split; [reflexivity|]. split; [lia|]. intros i _ _. reflexivity.
    - eexists. split; [reflexivity|]. split; [exact Hres|].
      intros i Hi1 Hi2.
      rewrite lookup_app_l by (rewrite length_take; lia).
      apply lookup_take_lt. exact Hi2. }
  destruct Hw' as (buf & -> & Hbl & Hkeep).
  destruct (clip_ok hopSize winSize 1 ltac:(lia)) as (Hlo & Hhi & Hin).
  assert (Hhop : 1 <= clip hopSize winSize 1 <= winSize).
  { destruct (Z.lt_ge_cases hopSize 1) as [Hlt|Hge].
    - rewrite Hlo by exact Hlt. lia.
    - destruct (Z.lt_ge_cases winSize hopSize) as [Hgt|Hle].
      + rewrite Hhi by exact Hgt. lia.
      + rewrite Hin by lia. lia. }
  unfold SlidingWindow_wf, SlidingWindow.sizeHop.
  cbn [SlidingWindow.mBuf SlidingWindow.mSizeWin SlidingWindow.mSizeHop
       SlidingWindow.mTapW SlidingWindow.mHopCnt].
  split; [repeat split; lia|]. split; [reflexivity|].
  split; [exact Hhop|]. split; [reflexivity|exact Hkeep].
Qed.
End ResizeInUse.

(** ** Concrete runs *)

(** Closed facts about concrete states are settled by evaluation. *)
Ltac evaluate :=
  repeat split; vm_compute; first [reflexivity | discriminate].

Lemma feed_windows_closed_witness :
  let w := SlidingWindow.mk [5; 6; 7; 8] 4 2 0 0 in
  Z.of_nat (length (feed_windows w [1; 2; 3; 4])) = (0 + 4) / 2.
Proof.
  intros w.
  assert (Hwf : SlidingWindow_wf w) by (unfold SlidingWindow_wf; cbn; lia).
  exact (proj1 (feed_windows_closed w [1; 2; 3; 4] Hwf)).
Defined.

Lemma feedCopy_windows_closed_witness :
  let w := SlidingWindow.mk [5; 6; 7; 8] 4 2 0 0 in
  Z.of_nat (length (feedCopy_windows w [0; 0; 0; 0] [1; 2; 3; 4])) = (0 + 4) / 2.
Proof.
  intros w.
  assert (Hwf : Ring_wf w) by (unfold Ring_wf; cbn; lia).
  assert (Hdst : (Z.to_nat (SlidingWindow.sizeWin w) <= length [0; 0; 0; 0])%nat)
    by (cbn; lia).
  exact (proj1 (feedCopy_windows_closed w [0; 0; 0; 0] [1; 2; 3; 4] Hwf Hdst)).
Defined.

Lemma feed_modes_agree_witness :
  let w := SlidingWindow.mk [5; 6; 7; 8] 4 2 0 0 in
  feed_windows w [1; 2; 3; 4] = feedCopy_windows w [0; 0; 0; 0; 0] [1; 2; 3; 4].
Proof.
  intros w.
  apply (feed_modes_agree w [0; 0; 0; 0; 0] [1; 2; 3; 4]).
  - unfold SlidingWindow_wf. cbn. lia.
  - unfold Ring_wf. cbn. lia.
  - reflexivity.
  - cbn. lia.
Defined.

Lemma constructed_window_invariants_witness :
  let w0 := SlidingWindow.create clamp (fun _ => 9) 7 4 9 in
  1 <= SlidingWindow.sizeHop w0 <= SlidingWindow.sizeWin w0.
Proof.
  intros w0.
  apply (constructed_window_invariants clamp clamp_contract (fun _ => 9) 7 4 9).
  lia.
Defined.

Lemma lowered_hop_size_witness :
  let w := SlidingWindow.mk [1; 2; 3; 0; 0; 0; 0; 0] 8 4 3 3 in
  let w' := SlidingWindow.set_sizeHop clamp w 2 in
  fst (fst (SlidingWindow.feedCopies w' [0; 0; 0; 0; 0; 0; 0; 0] [4; 5; 6]))
  = [false; false; false].
Proof.
  intros w w'.
  destruct (lowered_hop_size clamp clamp_contract w 2 4
              [0; 0; 0; 0; 0; 0; 0; 0] [4; 5; 6]) as (_ & Hcopy).
  - cbn. lia.
  - apply Hcopy.
    + unfold Ring_wf. cbn. lia.
    + cbn. lia.
    + cbn. lia.
Defined.

Lemma zero_clears_all_witness :
  DFTBase.mBuf (DFTBase.zero_bins (DFTBase.mk 4 [3; 4; 5; 6; 7; 8]))
  = [0; 0; 0; 0; 0; 0].
Proof.
  destruct (zero_clears_all (DFTBase.mk 4 [3; 4; 5; 6; 7; 8])) as (Hbuf & _).
  - unfold DFTBase_wf. cbn. lia.
  - exact Hbuf.
Defined.

Lemma zeroEnds_frame_witness :
  let d := DFTBase.mk 5 [3; 4; 5; 6; 7; 8; 9] in
  DFTBase.mBuf (DFTBase.zeroEnds d) !! 6%nat = DFTBase.mBuf d !! 6%nat.
Proof.
  intros d.
  destruct (zeroEnds_frame d) as (_ & Hframe & _).
  - unfold DFTBase_wf. cbn. lia.
  - apply (Hframe 6%nat); vm_compute; discriminate.
Defined.

Lemma zeroAux_frame_witness :
  let d := DFTAux.mk (DFTBase.mk 2 [0; 0; 0; 0]) 2 [1; 2; 3; 4] in
  DFTAux.mAux (DFTAux.zeroAux_num d 1) !! 0%nat = Some 1.
Proof.
  intros d.
  destruct (zeroAux_frame d 1) as (_ & _ & _ & _ & Hout & _).
  - unfold DFTAux_wf, DFTBase_wf. evaluate.
  - evaluate.
  - rewrite (Hout 0%nat); [reflexivity|].
    vm_compute. intros [Hle _]. apply Hle. reflexivity.
Defined.


Lemma inverse_every_hop_witness :
  let d := DFT.mk 4 4 0 1 ([] : list Z) 0%nat in
  Z.of_nat (DFT.nInverse
              (next_samples (fun _ => []) (fun b k => nth (Z.to_nat k) b 0)
                 10 d))
  = 0 + (1 + 10) / 4.
Proof.
  intros d.
  apply (inverse_every_hop (fun _ => []) (fun b k => nth (Z.to_nat k) b 0)
           10 d).
  unfold DFT_wf. cbn. lia.
Defined.

Lemma DFT_forward_blocks_witness :
  let fwd := fun d : STFT.t (T := Z) (More := unit) => (STFT.mBuf d, tt) in
  let d := STFT.mk [0; 0; 0; 0] 2 2 0 (SlidingWindow.mk [0; 0] 2 2 0 0) tt [] in
  exists ws,
    STFT.fwdLog (STFT.DFT_feeds fwd d [1; 2; 3; 4; 5]) = [] ++ ws /\
    Z.of_nat (length ws) = 5 / 2.
Proof.
  intros fwd d.
  destruct (DFT_forward_blocks fwd (fun _ => eq_refl) d [1; 2; 3; 4; 5])
    as (ws & Hlog & Hlen & _).
  - unfold DFT_feed_wf. cbn. lia.
  - reflexivity.
  - exists ws. split; [exact Hlog|exact Hlen].
Defined.

Lemma STFT_forward_windows_witness :
  let fwd := fun d : STFT.t (T := Z) (More := unit) => (STFT.mBuf d, tt) in
  let d := STFT.mk [0; 0; 0; 0; 0; 0] 4 4 0
             (SlidingWindow.mk [0; 0; 0; 0] 4 2 0 0) tt [] in
  exists ws,
    STFT.fwdLog (STFT.feeds fwd d [1; 2; 3; 4; 5]) = [] ++ ws /\
    Z.of_nat (length ws) = (0 + 5) / 2.
Proof.
  intros fwd d.
  destruct (STFT_forward_windows fwd (fun _ => eq_refl) d [1; 2; 3; 4; 5])
    as (ws & Hlog & Hlen & _).
  - unfold STFT_feed_wf, Ring_wf. cbn. lia.
  - exists ws. split; [exact Hlog|exact Hlen].
Defined.

Lemma resize_reestablishes_witness :
  let w := SlidingWindow.mk [1; 2; 3; 4] 4 2 1 1 in
  SlidingWindow.mBuf (SlidingWindow.resize clamp (fun _ => 9) w 6 9) !! 3%nat
  = Some 4.
Proof.
  intros w.
  destruct (resize_reestablishes clamp clamp_contract (fun _ => 9) w 6 9)
    as (_ & _ & _ & _ & Hkeep).
  - reflexivity.
  - lia.
  - rewrite (Hkeep 3%nat); [reflexivity | cbn; lia | cbn; lia].
Defined.
